(** * tailor.py: the CV tailoring pipeline

    A shallow embedding of [tailor.py] and the properties of its
    components: the output sanitizer [strip_markdown_fences], the
    structural validator [validate_latex], the input locator
    [find_job_posting], the compiler invoker [compile_pdf] and the
    orchestration in [main]. *)

From Stdlib Require Import String Ascii DecimalString.
From Stdlib Require Import List NArith ZArith Lia Bool Arith.
Import ListNotations.

Set Implicit Arguments.

(** ** Text

    A Python [str] is a sequence of Unicode code points. *)

Definition char := N.
Definition str := list char.

(** [u] reads an ASCII literal as a [str]. *)
Definition u (s : String.string) : str :=
  map Ascii.N_of_ascii (String.list_ascii_of_string s).

Definition NL : char := 10%N.
Definition BACKTICK : char := 96%N.
Definition SEP : char := 47%N.

(** [str.isspace] on one code point, which is also the class [\s] of a
    [str] pattern: CPython's [_PyUnicode_IsWhitespace]. *)
Definition isspace (c : char) : bool :=
  ((9 <=? c) && (c <=? 13) || (28 <=? c) && (c <=? 32)
   || (c =? 133) || (c =? 160) || (c =? 5760)
   || (8192 <=? c) && (c <=? 8202)
   || (c =? 8232) || (c =? 8233) || (c =? 8239) || (c =? 8287)
   || (c =? 12288))%N.

(** [s.startswith(p)], returning what follows the prefix. *)
Fixpoint strip_prefix (p s : str) : option str :=
  match p with
  | [] => Some s
  | x :: p' =>
      match s with
      | [] => None
      | y :: s' => if N.eqb x y then strip_prefix p' s' else None
      end
  end.

Definition startswith (s p : str) : bool :=
  match strip_prefix p s with Some _ => true | None => false end.

Definition endswith (s p : str) : bool := startswith (rev s) (rev p).

(** [needle in hay]. *)
Fixpoint contains (needle hay : str) : bool :=
  startswith hay needle
  || match hay with
     | [] => false
     | _ :: hay' => contains needle hay'
     end.

(** [str.lstrip()], [str.rstrip()] and [str.strip()] with no argument. *)
Fixpoint lstrip (s : str) : str :=
  match s with
  | c :: s' => if isspace c then lstrip s' else s
  | [] => []
  end.

Definition rstrip (s : str) : str := rev (lstrip (rev s)).

Definition strip (s : str) : str := rstrip (lstrip s).

(** [s.replace(old, new)]: every non-overlapping occurrence, left to
    right.  [skip] counts the characters of an occurrence still to be
    dropped. *)
Fixpoint replace_from (old new : str) (skip : nat) (s : str) : str :=
  match s with
  | [] => []
  | c :: s' =>
      match skip with
      | S k => replace_from old new k s'
      | O =>
          if startswith s old
          then new ++ replace_from old new (pred (length old)) s'
          else c :: replace_from old new O s'
      end
  end.

Definition replace (s old new : str) : str :=
  match old with
  | [] => new ++ flat_map (fun c => c :: new) s
  | _ :: _ => replace_from old new O s
  end.

(** [s[-n:]] for a positive [n]. *)
Definition last_chars (n : nat) (s : str) : str := skipn (length s - n) s.

(** ** Regular expressions

    The fragment of [re] that the sanitizer's two patterns use, with the
    backtracking order of the engine: the matcher lists the ways a
    pattern can match at a position, most preferred first. *)

Inductive regex : Type :=
| Bol                          (* ^  without MULTILINE *)
| Eol                          (* $  without MULTILINE *)
| Lit (l : str)                (* literal characters *)
| Seq (r1 r2 : regex)
| Alt (r1 r2 : regex)          (* r1|r2 *)
| Opt (r : regex)              (* r? greedy *)
| StarSet (p : char -> bool).  (* [set]* greedy *)

(** A matching position: the offset in the subject and the text from
    there on. *)
Definition mpos : Type := nat * str.

Fixpoint star_cands (p : char -> bool) (pos : nat) (s : str) : list mpos :=
  match s with
  | c :: s' =>
      if p c then star_cands p (S pos) s' ++ [(pos, s)] else [(pos, s)]
  | [] => [(pos, s)]
  end.

(** [$] holds at the end of the subject and before a final newline. *)
Definition at_end (s : str) : bool :=
  match s with
  | [] => true
  | [c] => N.eqb c NL
  | _ => false
  end.

Fixpoint matches (r : regex) (m : mpos) : list mpos :=
  match r with
  | Bol => if Nat.eqb (fst m) 0 then [m] else []
  | Eol => if at_end (snd m) then [m] else []
  | Lit l =>
      match strip_prefix l (snd m) with
      | Some rest => [(fst m + length l, rest)]
      | None => []
      end
  | Seq r1 r2 => flat_map (matches r2) (matches r1 m)
  | Alt r1 r2 => matches r1 m ++ matches r2 m
  | Opt r' => matches r' m ++ [m]
  | StarSet p => star_cands p (fst m) (snd m)
  end.

(** One attempt at a position; [must_advance] refuses an empty match. *)
Definition match_at (r : regex) (pos : nat) (s : str) (must_advance : bool)
  : option mpos :=
  find (fun m => negb (must_advance && Nat.eqb (fst m) pos))
       (matches r (pos, s)).

(** [sre_search]: the leftmost position at which the pattern matches.
    The result carries the text skipped before the match and the
    position after it. *)
Fixpoint search (r : regex) (pos : nat) (s : str) (must_advance : bool)
  : option (str * mpos) :=
  match match_at r pos s must_advance with
  | Some m => Some ([], m)
  | None =>
      match s with
      | [] => None
      | c :: s' =>
          match search r (S pos) s' false with
          | Some (skipped, m) => Some (c :: skipped, m)
          | None => None
          end
      end
  end.

(** The loop of [re.sub] with a literal replacement.  Every second
    iteration at least moves on by one character, so [fuel] of twice the
    length and two is never used up ([re_sub_fuel] below). *)
Fixpoint sub_loop (fuel : nat) (r : regex) (repl : str) (pos : nat) (s : str)
         (must_advance : bool) : str :=
  match fuel with
  | O => s
  | S fuel' =>
      match search r pos s must_advance with
      | None => s
      | Some (skipped, (e, rest)) =>
          skipped ++ repl
          ++ sub_loop fuel' r repl e rest (Nat.eqb e (pos + length skipped))
      end
  end.

Definition re_sub (r : regex) (repl text : str) : str :=
  sub_loop (S (S (2 * length text))) r repl 0 text false.

(** ** Output sanitizer *)

Definition FENCE : str := [BACKTICK; BACKTICK; BACKTICK].

(** [^```(?:latex|tex)?\s*\n] *)
Definition RE_OPEN : regex :=
  Seq Bol
      (Seq (Lit FENCE)
           (Seq (Opt (Alt (Lit (u "latex")) (Lit (u "tex"))))
                (Seq (StarSet isspace) (Lit [NL])))).

(** [\n```\s*$] *)
Definition RE_CLOSE : regex :=
  Seq (Lit (NL :: FENCE)) (Seq (StarSet isspace) Eol).

Definition strip_markdown_fences (text : str) : str :=
  let text := strip text in
  let text := re_sub RE_OPEN [] text in
  let text := re_sub RE_CLOSE [] text in
  text.

(** ** Paths ([posixpath]) *)

(** [os.path.join(a, *p)]. *)
Fixpoint os_path_join (a : str) (p : list str) : str :=
  match p with
  | [] => a
  | b :: p' =>
      os_path_join
        (if startswith b [SEP] then b
         else if (Nat.eqb (length a) 0 || endswith a [SEP])%bool then a ++ b
         else a ++ SEP :: b)
        p'
  end.

(** The text after the last separator: [p[p.rfind('/') + 1:]]. *)
Fixpoint after_last_sep (p acc : str) : str :=
  match p with
  | [] => acc
  | c :: p' => after_last_sep p' (if N.eqb c SEP then p' else acc)
  end.

Definition os_path_basename (p : str) : str := after_last_sep p p.

Fixpoint lstrip_sep (s : str) : str :=
  match s with
  | c :: s' => if N.eqb c SEP then lstrip_sep s' else s
  | [] => []
  end.

(** The head of [os.path.split(p)]: up to the last separator, with the
    trailing separators dropped unless nothing else is left. *)
Definition os_path_dirname (p : str) : str :=
  let head := firstn (length p - length (os_path_basename p)) p in
  if forallb (N.eqb SEP) head then head
  else rev (lstrip_sep (rev head)).

(** ** Shell patterns ([fnmatch])

    [glob] matches the entries of a directory with [fnmatch.filter],
    which translates the shell pattern into a regular expression and
    matches the whole name against it.  [translate], as CPython 3.11
    has it, is read here into the pieces of that expression instead of
    its text. *)

Definition STAR : char := 42%N.
Definition QUESTION : char := 63%N.
Definition LBRACKET : char := 91%N.
Definition RBRACKET : char := 93%N.
Definition BANG : char := 33%N.
Definition HYPHEN : char := 45%N.
Definition CARET : char := 94%N.
Definition BACKSLASH : char := 92%N.

Inductive piece : Type :=
| Star                                   (* STAR *)
| AnyChar                                (* .  under (?s) *)
| Never                                  (* (?!) *)
| OneOf (negated : bool) (ranges : list (char * char))   (* [stuff] *)
| Exactly (c : char).                    (* re.escape(c) *)

(** [s.find(c)]. *)
Fixpoint index_of (c : char) (s : str) : option nat :=
  match s with
  | [] => None
  | x :: s' => if N.eqb x c then Some O else option_map S (index_of c s')
  end.

(** The index [j] of the bracket that closes the set opened just before
    [rest]: one [!] and then one closing bracket are stepped over, and
    the next closing bracket ends the set. *)
Definition set_close (rest : str) : option nat :=
  let j := match rest with
           | c :: _ => if N.eqb c BANG then 1 else 0
           | [] => 0
           end in
  let j := match nth_error rest j with
           | Some c => if N.eqb c RBRACKET then S j else j
           | None => j
           end in
  option_map (Nat.add j) (index_of RBRACKET (skipn j rest)).

(** The [while True] loop over [pat.find('-', k, j)]: the set is cut at
    each hyphen the search finds.  [guard] counts the characters before
    the position [k] the next search starts from; [chunk] is [pat[i:]]
    as read so far. *)
Fixpoint split_ranges (stuff chunk : str) (guard : nat) (chunks : list str)
  : list str * str :=
  match stuff with
  | [] => (chunks, chunk)
  | c :: stuff' =>
      match guard with
      | S g => split_ranges stuff' (chunk ++ [c]) g chunks
      | O =>
          if N.eqb c HYPHEN
          then split_ranges stuff' [] 2 (chunks ++ [chunk])
          else split_ranges stuff' (chunk ++ [c]) O chunks
      end
  end.

Definition chunks_of (stuff : str) : list str :=
  let guard := if startswith stuff [BANG] then 2 else 1 in
  let (chunks, chunk) := split_ranges stuff [] guard [] in
  match chunk with
  | _ :: _ => chunks ++ [chunk]
  | [] => removelast chunks ++ [last chunks [] ++ [HYPHEN]]
  end.

(** The loop [for k in range(len(chunks)-1, 0, -1)] that removes the
    ranges whose first character is above their last. *)
Fixpoint drop_empty_ranges (chunks : list str) : list str :=
  match chunks with
  | [] => []
  | c :: later =>
      match drop_empty_ranges later with
      | [] => [c]
      | d :: ds =>
          if (hd 0 d <? last c 0)%N
          then (removelast c ++ tl d) :: ds
          else c :: d :: ds
      end
  end.

(** [sep.join(parts)]. *)
Fixpoint join_with (sep : str) (parts : list str) : str :=
  match parts with
  | [] => []
  | [p] => p
  | p :: more => p ++ sep ++ join_with sep more
  end.

Definition escape_chunk (s : str) : str :=
  replace (replace s [BACKSLASH] [BACKSLASH; BACKSLASH])
          [HYPHEN] [BACKSLASH; HYPHEN].

(** [re.sub(r'([&~|])', r'\\\1', stuff)]. *)
Definition escape_set_operators (s : str) : str :=
  flat_map (fun c => if ((c =? 38) || (c =? 126) || (c =? 124))%N
                     then [BACKSLASH; c] else [c]) s.

(** The text that [translate] puts between the brackets, before it looks
    at its first character. *)
Definition set_text (stuff : str) : str :=
  escape_set_operators
    (if negb (existsb (N.eqb HYPHEN) stuff)
     then replace stuff [BACKSLASH] [BACKSLASH; BACKSLASH]
     else join_with [HYPHEN]
                    (map escape_chunk (drop_empty_ranges (chunks_of stuff)))).

(** How [re] reads the inside of a set: a backslash quotes the next
    character, and a hyphen between two characters makes a range. *)
Inductive set_state : Type :=
| Fresh
| Quoted
| Code (lo : char)
| Range (lo : char)
| RangeQuoted (lo : char).

Fixpoint set_ranges (s : str) (st : set_state) : list (char * char) :=
  match s with
  | [] =>
      match st with
      | Code lo => [(lo, lo)]
      | Range lo => [(lo, lo); (HYPHEN, HYPHEN)]
      | _ => []
      end
  | c :: s' =>
      match st with
      | Fresh => set_ranges s' (if N.eqb c BACKSLASH then Quoted else Code c)
      | Quoted => set_ranges s' (Code c)
      | Code lo =>
          if N.eqb c HYPHEN then set_ranges s' (Range lo)
          else (lo, lo)
               :: set_ranges s' (if N.eqb c BACKSLASH then Quoted else Code c)
      | Range lo =>
          if N.eqb c BACKSLASH then set_ranges s' (RangeQuoted lo)
          else (lo, c) :: set_ranges s' Fresh
      | RangeQuoted lo => (lo, c) :: set_ranges s' Fresh
      end
  end.

Definition re_set (text : str) : piece :=
  match text with
  | c :: rest =>
      if N.eqb c CARET then OneOf true (set_ranges rest Fresh)
      else OneOf false (set_ranges text Fresh)
  | [] => OneOf false []
  end.

(** What [translate] adds for the set [pat[i:j]]. *)
Definition set_piece (stuff : str) : piece :=
  match set_text stuff with
  | [] => Never
  | c :: rest =>
      if (N.eqb c BANG && Nat.eqb (length rest) 0)%bool then AnyChar
      else if N.eqb c BANG then re_set (CARET :: rest)
      else if (N.eqb c CARET || N.eqb c LBRACKET)%bool
           then re_set (BACKSLASH :: c :: rest)
      else re_set (c :: rest)
  end.

Definition ends_in_star (res : list piece) : bool :=
  match rev res with
  | Star :: _ => true
  | _ => false
  end.

(** The first loop of [translate].  [skip] counts the characters of a
    set still to be stepped over. *)
Fixpoint translate_from (pat : str) (skip : nat) (res : list piece)
  : list piece :=
  match pat with
  | [] => res
  | c :: rest =>
      match skip with
      | S k => translate_from rest k res
      | O =>
          if N.eqb c STAR
          then translate_from rest O
                              (if ends_in_star res then res else res ++ [Star])
          else if N.eqb c QUESTION
          then translate_from rest O (res ++ [AnyChar])
          else if N.eqb c LBRACKET
          then match set_close rest with
               | None => translate_from rest O (res ++ [Exactly LBRACKET])
               | Some j =>
                   translate_from rest (S j)
                                  (res ++ [set_piece (firstn j rest)])
               end
          else translate_from rest O (res ++ [Exactly c])
      end
  end.

Definition translate (pat : str) : list piece := translate_from pat O [].

(** The pieces between the stars: the fixed pieces at the start, then
    the fixed pieces after each star. *)
Fixpoint segments (ps seg : list piece) : list (list piece) :=
  match ps with
  | [] => [seg]
  | Star :: ps' => seg :: segments ps' []
  | p :: ps' => segments ps' (seg ++ [p])
  end.

Definition accepts (p : piece) (c : char) : bool :=
  match p with
  | Star => false
  | AnyChar => true
  | Never => false
  | OneOf negated ranges =>
      xorb negated
           (existsb (fun r => (fst r <=? c) && (c <=? snd r))%N ranges)
  | Exactly x => N.eqb x c
  end.

(** The fixed pieces match at the start of [s]; what follows them. *)
Fixpoint fixed_prefix (fixed : list piece) (s : str) : option str :=
  match fixed with
  | [] => Some s
  | p :: fixed' =>
      match s with
      | c :: s' => if accepts p c then fixed_prefix fixed' s' else None
      | [] => None
      end
  end.

(** [(?>.*?fixed)]: the first place where the fixed pieces match, with
    no way back. *)
Fixpoint minimal (fixed : list piece) (s : str) : option str :=
  match fixed_prefix fixed s with
  | Some rest => Some rest
  | None =>
      match s with
      | [] => None
      | _ :: s' => minimal fixed s'
      end
  end.

(** [.*fixed] up to the end of the name. *)
Definition fixed_at_end (fixed : list piece) (s : str) : bool :=
  (length fixed <=? length s)
  && match fixed_prefix fixed (skipn (length s - length fixed) s) with
     | Some [] => true
     | _ => false
     end.

(** The second loop of [translate], STAR fixed STAR fixed ..., on what
    the fixed pieces at the start left of the name. *)
Fixpoint after_star (fixed : list piece) (more : list (list piece)) (s : str)
  : bool :=
  match more with
  | [] => fixed_at_end fixed s
  | next :: more' =>
      match minimal fixed s with
      | Some s' => after_star next more' s'
      | None => false
      end
  end.

(** [re.compile(translate(pat)).match(name)], the whole of [name]. *)
Definition fnmatchcase (name pat : str) : bool :=
  match segments (translate pat) [] with
  | [] => false
  | lead :: stars =>
      match fixed_prefix lead name with
      | None => false
      | Some rest =>
          match stars with
          | [] => Nat.eqb (length rest) 0
          | fixed :: more => after_star fixed more rest
          end
      end
  end.

Definition fnmatch_filter (names : list str) (pat : str) : list str :=
  filter (fun name => fnmatchcase name pat) names.

(** ** Path name patterns ([glob]) *)

(** [a == b] on texts. *)
Fixpoint str_eqb (a b : str) : bool :=
  match a, b with
  | [], [] => true
  | x :: a', y :: b' => N.eqb x y && str_eqb a' b'
  | _, _ => false
  end.

(** [magic_check.search(s) is not None]. *)
Definition has_magic (s : str) : bool :=
  existsb (fun c => N.eqb c STAR || N.eqb c QUESTION || N.eqb c LBRACKET) s.

(** [_ishidden(path)]. *)
Definition ishidden (name : str) : bool := startswith name (u ".").

(** [_join(dirname, basename)] of [glob]. *)
Definition glob_join (dirname basename : str) : str :=
  match dirname, basename with
  | [], _ => basename
  | _, [] => dirname
  | _, _ => os_path_join dirname [basename]
  end.

(** The directory [_iterdir] scans for [dirname]. *)
Definition scandir_arg (dirname : str) : str :=
  match dirname with
  | [] => u "."
  | _ :: _ => dirname
  end.

(** ** The world and its effects

    What the run reads from its environment is a field of [world]; what
    it does to it is an [event] of the trace. *)

Record completed : Type := {
  returncode : Z;
  stdout : str
}.

Inductive event : Type :=
| PrintOut (line : str)                   (* print(line) *)
| PrintErr (line : str)                   (* print(line, file=sys.stderr) *)
| OpenRead (path : str)                   (* open(path, "r") *)
| WriteFile (path text : str)             (* open(path, "w") and f.write(text) *)
| Invoke (model : str) (system human : str)   (* llm.invoke(messages) *)
| Run (args : list str) (cwd : str).      (* subprocess.run(args, cwd=cwd) *)

Record world : Type := {
  REPO_ROOT : str;
  argv : list str;
  os_path_isdir : str -> bool;
  os_path_lexists : str -> bool;
  os_environ_get : str -> option str;
  (** the decoded content of a file, [None] when [open] or [read] raises *)
  file_text : str -> option str;
  (** whether [open(path, "w")] and the write succeed *)
  writable : str -> bool;
  (** the entries of a directory in the order the system lists them,
      none for a path that is no directory *)
  listdir : str -> list str;
  os_path_relpath : str -> str -> str;
  (** the content of the model's reply, [None] when the call raises
      after the client's own retries *)
  llm_reply : str -> str -> str -> option str;
  (** what [subprocess.run] returns for the compiler, which sees what
      the run did before; [None] when the call raises: the program
      cannot be started, or what it wrote is not text in the encoding
      of the locale *)
  process : list event -> list str -> str -> option completed
}.

Inductive exn : Type :=
| IndexError
| OSError (path : str)
| InvokeError                 (* what llm.invoke raised *)
| RunError.                   (* what subprocess.run raised *)

Inductive outcome (A : Type) : Type :=
| Ret (a : A)
| Exit (code : Z)        (* sys.exit(code) *)
| Raise (e : exn).       (* an exception nobody catches *)

Arguments Exit {A} code.
Arguments Raise {A} e.

(** A computation extends the trace of the events so far. *)
Definition M (A : Type) : Type := list event -> outcome A * list event.

Definition ret {A} (a : A) : M A := fun t => (Ret a, t).

Definition bind {A B} (m : M A) (f : A -> M B) : M B :=
  fun t =>
    match m t with
    | (Ret a, t') => f a t'
    | (Exit c, t') => (Exit c, t')
    | (Raise e, t') => (Raise e, t')
    end.

Definition emit (e : event) : M unit := fun t => (Ret tt, t ++ [e]).
Definition sys_exit {A} (c : Z) : M A := fun t => (Exit c, t).
Definition raise {A} (e : exn) : M A := fun t => (Raise e, t).
Definition history : M (list event) := fun t => (Ret t, t).

Declare Scope py_scope.
Delimit Scope py_scope with py.
Notation "x <- m ;; k" := (bind m (fun x => k))
  (at level 61, m at next level, right associativity) : py_scope.
Notation "m ;; k" := (bind m (fun _ => k))
  (at level 61, right associativity) : py_scope.
Local Open Scope py_scope.

Definition print (line : str) : M unit := emit (PrintOut line).
Definition print_err (line : str) : M unit := emit (PrintErr line).

(** [if c: body] as a statement. *)
Definition when (c : bool) (body : M unit) : M unit :=
  if c then body else ret tt.

(** [l[i]]. *)
Definition item {A} (l : list A) (i : nat) : M A :=
  match nth_error l i with
  | Some a => ret a
  | None => raise IndexError
  end.

(** The status the interpreter exits with. *)
Definition exit_status {A} (o : outcome A) : Z :=
  match o with
  | Ret _ => 0
  | Exit c => c
  | Raise _ => 1
  end.

(** [f"{n}"] for a number. *)
Definition fmt_nat (n : nat) : str := u (NilZero.string_of_uint (Nat.to_uint n)).

Section Run.

Variable w : world.

Definition read_text (path : str) : M str :=
  emit (OpenRead path) ;;
  match file_text w path with
  | Some text => ret text
  | None => raise (OSError path)
  end.

Definition write_text (path text : str) : M unit :=
  if writable w path then emit (WriteFile path text) else raise (OSError path).

(** [_listdir(dirname, None, dironly)]: the names [os.scandir] gives,
    none when it raises, and only those of directories when [dironly]
    is set. *)
Definition glob_listdir (dirname : str) (dironly : bool) : list str :=
  let arg := scandir_arg dirname in
  filter (fun name => negb dironly || os_path_isdir w (os_path_join arg [name]))
         (listdir w arg).

Definition glob1 (dirname pattern : str) (dironly : bool) : list str :=
  let names := glob_listdir dirname dironly in
  let names := if negb (ishidden pattern)
               then filter (fun x => negb (ishidden x)) names
               else names in
  fnmatch_filter names pattern.

Definition glob0 (dirname basename : str) : list str :=
  match basename with
  | _ :: _ =>
      if os_path_lexists w (glob_join dirname basename) then [basename] else []
  | [] => if os_path_isdir w dirname then [basename] else []
  end.

(** [_iglob(pathname, '', None, False, dironly)].  A directory part
    that holds a pattern character is globbed in its turn; it is
    shorter than [pathname], so [fuel] above the length of [pathname]
    is never used up ([iglob_fuel]). *)
Fixpoint iglob (fuel : nat) (pathname : str) (dironly : bool) : list str :=
  match fuel with
  | O => []
  | S fuel' =>
      let dirname := os_path_dirname pathname in
      let basename := os_path_basename pathname in
      if negb (has_magic pathname) then
        match basename with
        | _ :: _ => if os_path_lexists w pathname then [pathname] else []
        | [] => if os_path_isdir w dirname then [pathname] else []
        end
      else
        match dirname with
        | [] => glob1 [] basename dironly
        | _ :: _ =>
            let dirs := if negb (str_eqb dirname pathname) && has_magic dirname
                        then iglob fuel' dirname true
                        else [dirname] in
            flat_map
              (fun dirname =>
                 map (fun name => os_path_join dirname [name])
                     (if has_magic basename
                      then glob1 dirname basename dironly
                      else glob0 dirname basename))
              dirs
        end
  end.

(** [glob.glob(pathname)], with [recursive] and [include_hidden] left
    at their defaults, as [find_job_posting] calls it for its [*.txt]
    pattern. *)
Definition glob_txt (pathname : str) : list str :=
  match pathname with
  | [] => []
  | _ :: _ => iglob (S (length pathname)) pathname false
  end.

(** What [fnmatch] comes to for the pattern [*.txt]
    ([fnmatchcase_txt]). *)
Definition fnmatch_txt (name : str) : bool := endswith name (u ".txt").

(** ** Input locator *)

Definition find_job_posting (company_dir : str) : M str :=
  let txt_files := glob_txt (os_path_join company_dir [u "*.txt"]) in
  when (Nat.eqb (length txt_files) 0)
       (print_err (u "Error: No .txt file found in " ++ company_dir) ;;
        print_err (u "Place the job posting as a .txt file in the offer folder.") ;;
        sys_exit 1) ;;
  when (1 <? length txt_files)
       (first <- item txt_files 0 ;;
        print_err (u "Warning: Multiple .txt files found, using " ++ first)) ;;
  item txt_files 0.

(** ** Structural validator *)

Definition BEGIN_DOCUMENT : str := u "\begin{document}".
Definition END_DOCUMENT : str := u "\end{document}".

Definition VALIDATE_WARNING : str :=
  u "Warning: Generated LaTeX may be invalid "
  ++ u "(missing \begin{document} or \end{document}). "
  ++ u "Saving anyway for manual inspection.".

Definition validate_latex (text : str) : M bool :=
  let has_begin := contains BEGIN_DOCUMENT text in
  let has_end := contains END_DOCUMENT text in
  if (negb has_begin || negb has_end)%bool
  then print_err VALIDATE_WARNING ;; ret false
  else ret true.

(** ** Document compiler invoker *)

(** [subprocess.run(args, cwd=cwd, capture_output=True, text=True)]:
    a non-zero exit status is returned, not raised. *)
Definition subprocess_run (args : list str) (cwd : str) : M completed :=
  t <- history ;;
  emit (Run args cwd) ;;
  match process w t args cwd with
  | Some result => ret result
  | None => raise RunError
  end.

Definition TAIL : nat := 2000.

Definition log_path_of (tex_filename company_dir : str) : str :=
  os_path_join company_dir [replace tex_filename (u ".tex") (u ".log")].

(** The command line of one pass. *)
Definition pdflatex_command (output_dir tex_filename : str) : list str :=
  [u "pdflatex";
   u "-interaction=nonstopmode";
   u "-halt-on-error";
   u "-output-directory=" ++ output_dir;
   os_path_join output_dir [tex_filename]].

(** [result.stdout[-2000:]], or the empty text when nothing was
    captured. *)
Definition surfaced (out : str) : str :=
  if Nat.eqb (length out) 0 then [] else last_chars TAIL out.

(** The body of [for pass_num in (1, 2)], with its early [return False]. *)
Fixpoint compile_passes (tex_filename output_dir company_dir : str)
         (passes : list nat) : M bool :=
  match passes with
  | [] => ret true
  | pass_num :: later =>
      result <- subprocess_run (pdflatex_command output_dir tex_filename)
                               (REPO_ROOT w) ;;
      if negb (Z.eqb (returncode result) 0) then
        let log_path := log_path_of tex_filename company_dir in
        print_err (u "Error: pdflatex pass " ++ fmt_nat pass_num ++ u " failed.") ;;
        print_err (u "Check the log: " ++ log_path) ;;
        print_err (surfaced (stdout result)) ;;
        ret false
      else compile_passes tex_filename output_dir company_dir later
  end.

Definition compile_pdf (tex_path company_dir : str) : M bool :=
  let tex_filename := os_path_basename tex_path in
  let output_dir := os_path_relpath w company_dir (REPO_ROOT w) in
  compile_passes tex_filename output_dir company_dir [1; 2].

(** ** Orchestration *)

Definition EM_DASH : char := 8212%N.

(** A line of a Python string literal, with the newline that ends it. *)
Definition nl (s : str) : str := s ++ [NL].

Definition SYSTEM_PROMPT : str :=
  nl (u "You are an expert CV tailoring assistant. Your task is to adapt a LaTeX resume") ++
  nl (u "to better match a specific job posting.") ++
  nl [] ++
  nl (u "RULES " ++ [EM_DASH] ++ u " follow these strictly:") ++
  nl [] ++
  nl (u "1. OUTPUT FORMAT: Return ONLY valid LaTeX code. No markdown fences, no") ++
  nl (u "   commentary, no explanations " ++ [EM_DASH] ++ u " just the complete LaTeX document.") ++
  nl [] ++
  nl (u "2. PRESERVE STRUCTURE: Keep the exact same LaTeX preamble, \documentclass,") ++
  nl (u "   \usepackage declarations, custom commands (\workentry, \educationentry,") ++
  nl (u "   \sectionbox), layout settings, and overall document skeleton. Keep the") ++
  nl (u "   \input{private} directive exactly as-is.") ++
  nl [] ++
  nl (u "3. MODIFY ONLY CONTENT " ++ [EM_DASH] ++ u " you may change text inside these sections:") ++
  nl (u "   - About Me " ++ [EM_DASH] ++ u " rewrite to emphasize skills/experience matching the job posting.") ++
  nl (u "   - Key Competences " ++ [EM_DASH] ++ u " reorder, adjust emphasis, promote relevant items, demote") ++
  nl (u "     or remove less relevant ones. You may add technologies mentioned in the") ++
  nl (u "     posting IF the candidate demonstrably has them based on work experience.") ++
  nl (u "   - Work Experience " ++ [EM_DASH] ++ u " keep ALL entries but adjust project descriptions and tech") ++
  nl (u "     stacks to highlight the most relevant aspects for this job.") ++
  nl (u "   - Trainings " ++ [EM_DASH] ++ u " adjust if relevant to the posting.") ++
  nl (u "   - Projects " ++ [EM_DASH] ++ u " reorder or adjust emphasis.") ++
  nl [] ++
  nl (u "4. NEVER FABRICATE " ++ [EM_DASH] ++ u " do not invent experience, skills, projects, or job titles") ++
  nl (u "   that do not exist in the original CV. You may reword and reframe existing") ++
  nl (u "   content to sound more relevant, but never add fictional items.") ++
  nl [] ++
  nl (u "5. KEEP THE SAME LENGTH " ++ [EM_DASH] ++ u " the tailored CV should have very similar length as") ++
  nl (u "   the original resume. Do not add or remove sections. ") ++
  nl (u "   Use the original resume as the reference for size.") ++
  nl [] ++
  nl (u "6. LANGUAGE " ++ [EM_DASH] ++ u " write the CV content in English.").

Definition MODEL : str := u "gemini-3-pro-preview".
Definition API_KEY : str := u "GOOGLE_API_KEY".

Definition RESUME_TEX : str := os_path_join (REPO_ROOT w) [u "resume.tex"].

Definition company_dir_of (offer_name : str) : str :=
  os_path_join (REPO_ROOT w) [u "offers"; offer_name].

Definition output_tex_of (offer_name : str) : str :=
  os_path_join (company_dir_of offer_name)
               [u "resume-" ++ offer_name ++ u ".tex"].

Definition pdf_path_of (output_tex : str) : str :=
  replace output_tex (u ".tex") (u ".pdf").

Definition user_prompt_of (resume_content job_posting : str) : str :=
  u "Below is my current LaTeX resume and a job posting. "
  ++ u "Please produce a tailored version of the resume that highlights "
  ++ nl (nl (u "the most relevant experience and skills for this position."))
  ++ nl (u "=== LATEX RESUME ===")
  ++ nl (nl resume_content)
  ++ nl (u "=== JOB POSTING ===")
  ++ nl job_posting.

(** [llm.invoke(messages)] on the client configured in [main]. *)
Definition llm_invoke (system human : str) : M str :=
  emit (Invoke MODEL system human) ;;
  match llm_reply w MODEL system human with
  | Some content => ret content
  | None => raise InvokeError
  end.

(** [not os.environ.get(name)]: unset, or set to the empty text. *)
Definition env_missing (name : str) : bool :=
  match os_environ_get w name with
  | Some (_ :: _) => false
  | _ => true
  end.

Definition main : M unit :=
  when (negb (Nat.eqb (length (argv w)) 2))
       (prog <- item (argv w) 0 ;;
        print_err (u "Usage: " ++ prog ++ u " <offer-folder-name>") ;;
        print_err (u "Example: python tailor.py google") ;;
        sys_exit 1) ;;
  offer_name <- item (argv w) 1 ;;
  let company_dir := company_dir_of offer_name in
  when (negb (os_path_isdir w company_dir))
       (print_err (u "Error: Directory not found: " ++ company_dir) ;;
        sys_exit 1) ;;
  when (env_missing API_KEY)
       (print_err (u "Error: GOOGLE_API_KEY environment variable is not set.") ;;
        sys_exit 1) ;;
  resume_content <- read_text RESUME_TEX ;;
  job_posting_path <- find_job_posting company_dir ;;
  job_posting <- read_text job_posting_path ;;
  let output_tex := output_tex_of offer_name in
  print (u "Calling Gemini 3 Pro to tailor CV for '" ++ offer_name ++ u "'...") ;;
  let user_prompt := user_prompt_of resume_content job_posting in
  response <- llm_invoke SYSTEM_PROMPT user_prompt ;;
  let tailored_tex := strip_markdown_fences response in
  validate_latex tailored_tex ;;
  write_text output_tex tailored_tex ;;
  print (u "Tailored .tex saved: " ++ output_tex) ;;
  print (u "Compiling PDF...") ;;
  compiled <- compile_pdf output_tex company_dir ;;
  if compiled then
    let pdf_path := pdf_path_of output_tex in
    print (u "PDF ready: " ++ pdf_path)
  else
    print (u "PDF compilation failed. The .tex file is saved for manual inspection.") ;;
    sys_exit 1.

End Run.

(** * Vocabulary of the properties *)

(** [needle] occurs in [hay] as a run of consecutive characters. *)
Definition occurs (needle hay : str) : Prop :=
  exists pre post, hay = pre ++ needle ++ post.

(** Whether the text begins, or ends, with a whitespace character. *)
Definition head_space (s : str) : bool :=
  match s with
  | c :: _ => isspace c
  | [] => false
  end.

Definition tail_space (s : str) : bool := head_space (rev s).

(** ** The two patterns, read off directly

    What the matcher finds for the sanitizer's patterns, as plain
    recursions on the text; the regular expressions above are proved to
    compute exactly these. *)

(** The text from here on is a closing fence: newline, three backticks
    and whitespace to the end. *)
Definition closes (s : str) : bool :=
  match strip_prefix (NL :: FENCE) s with
  | Some r => forallb isspace r
  | None => false
  end.

(** The text before the leftmost closing fence. *)
Fixpoint find_close (s : str) : option str :=
  if closes s then Some []
  else match s with
       | [] => None
       | c :: s' =>
           match find_close s' with
           | Some sk => Some (c :: sk)
           | None => None
           end
       end.

(** The text after the last newline of the leading whitespace. *)
Fixpoint after_ws_nl (s : str) : option str :=
  match s with
  | c :: s' =>
      if isspace c then
        match after_ws_nl s' with
        | Some r => Some r
        | None => if N.eqb NL c then Some s' else None
        end
      else None
  | [] => None
  end.

Definition after_tag (tag s : str) : option str :=
  match strip_prefix tag s with
  | Some r => after_ws_nl r
  | None => None
  end.

(** The text after an opening fence line. *)
Definition open_rest (t : str) : option str :=
  match strip_prefix FENCE t with
  | None => None
  | Some r1 =>
      match after_tag (u "latex") r1 with
      | Some x => Some x
      | None =>
          match after_tag (u "tex") r1 with
          | Some x => Some x
          | None => after_ws_nl r1
          end
      end
  end.

(** What the two substitutions leave. *)
Definition drop_open (t : str) : str :=
  match open_rest t with Some r => r | None => t end.

Definition drop_close (t : str) : str :=
  match find_close t with Some sk => sk | None => t end.

(** ** Clean and wrapped text *)

(** The language tags the opening pattern knows. *)
Definition TAGS : list str := [[]; u "latex"; u "tex"].

(** An opening fence line: three backticks, a tag or none, whitespace,
    and the newline that ends it. *)
Definition opening_line (l : str) : Prop :=
  exists tag w, In tag TAGS /\ forallb isspace w = true
                /\ l = FENCE ++ tag ++ w ++ [NL].

Definition starts_with_fence (y : str) : Prop :=
  exists l r, opening_line l /\ y = l ++ r.

Definition ends_with_fence (y : str) : Prop :=
  exists b, y = b ++ NL :: FENCE.

(** Text the sanitizer has nothing to do on. *)
Definition clean (y : str) : Prop :=
  head_space y = false /\ tail_space y = false
  /\ ~ starts_with_fence y /\ ~ ends_with_fence y.

(** The body begins on its first line: its leading whitespace, if any,
    holds no newline and is followed by a character that is no
    whitespace. *)
Definition starts_on_first_line (body : str) : Prop :=
  exists w c rest,
    body = w ++ c :: rest
    /\ forallb (fun a => isspace a && negb (N.eqb NL a)) w = true
    /\ isspace c = false.

Definition wrap (tag body : str) : str :=
  FENCE ++ tag ++ NL :: body ++ NL :: FENCE.

(** ** Traces *)

Definition is_print_err (e : event) : bool :=
  match e with PrintErr _ => true | _ => false end.

Definition is_open_read (e : event) : bool :=
  match e with OpenRead _ => true | _ => false end.

Definition is_write_file (e : event) : bool :=
  match e with WriteFile _ _ => true | _ => false end.

Definition is_invoke (e : event) : bool :=
  match e with Invoke _ _ _ => true | _ => false end.

(** A computation only ever adds to the trace. *)
Definition extends {A} (m : M A) : Prop :=
  forall t, exists evs, snd (m t) = t ++ evs.

(** The pattern [glob] is given for a job folder. *)
Definition posting_pattern (company_dir : str) : str :=
  os_path_join company_dir [u "*.txt"].

(** What [compile_pdf] reports when pass [pass_num] exits non-zero. *)
Definition failure_report (tex_path company_dir : str) (pass_num : nat)
           (result : completed) : list event :=
  [PrintErr (u "Error: pdflatex pass " ++ fmt_nat pass_num ++ u " failed.");
   PrintErr (u "Check the log: "
             ++ log_path_of (os_path_basename tex_path) company_dir);
   PrintErr (surfaced (stdout result))].

(** The event of one compiler pass. *)
Definition pass_event (w : world) (tex_path company_dir : str) : event :=
  Run (pdflatex_command (os_path_relpath w company_dir (REPO_ROOT w))
                        (os_path_basename tex_path))
      (REPO_ROOT w).

(** Both markers occur in the text. *)
Definition has_markers (text : str) : bool :=
  contains BEGIN_DOCUMENT text && contains END_DOCUMENT text.

(** ** A sample world

    A repository at [/repo] whose job folder lists [entries]; the model
    answers [reply] and the two compiler passes exit with [status1] and
    [status2]. *)

Definition is_run (e : event) : bool :=
  match e with Run _ _ => true | _ => false end.

Definition sample_world (offer : str) (entries : list str) (key : option str)
           (reply : str) (status1 status2 : Z) : world :=
  {| REPO_ROOT := u "/repo";
     argv := [u "tailor.py"; offer];
     os_path_isdir := fun _ => true;
     os_path_lexists := fun _ => true;
     os_environ_get := fun _ => key;
     file_text := fun _ => Some (u "text");
     writable := fun _ => true;
     listdir := fun _ => entries;
     os_path_relpath := fun path start => skipn (S (length start)) path;
     llm_reply := fun _ _ _ => Some reply;
     process := fun t _ _ =>
                  Some {| returncode := if existsb is_run t then status2
                                        else status1;
                          stdout := u "This is pdfTeX" |} |}.

(** A reply with both markers, wrapped in a fence. *)
Definition SAMPLE_REPLY : str :=
  wrap (u "latex") (u "\begin{document}Hello\end{document}").

(** ** Sample inputs *)

Definition ACME : str := u "acme".
Definition ACME_DIR : str := u "/repo/offers/acme".
Definition ACME_TEX : str := u "/repo/offers/acme/resume-acme.tex".

(** The job folder holds one posting and everything succeeds. *)
Definition WORLD_OK : world :=
  sample_world ACME [u "jd.txt"] (Some (u "k")) SAMPLE_REPLY 0 0.

(** The model's reply has neither marker. *)
Definition WORLD_NO_MARKERS : world :=
  sample_world ACME [u "jd.txt"] (Some (u "k")) (u "no markers") 0 0.

(** The job folder holds no [.txt] file. *)
Definition WORLD_NO_POSTING : world :=
  sample_world ACME [u "notes.md"; u ".hidden"] (Some (u "k")) SAMPLE_REPLY 0 0.

(** The job folder holds two postings. *)
Definition WORLD_TWO_POSTINGS : world :=
  sample_world ACME [u "b.txt"; u "a.txt"] (Some (u "k")) SAMPLE_REPLY 0 0.

(** The first compiler pass exits with status one. *)
Definition WORLD_PASS1_FAILS : world :=
  sample_world ACME [u "jd.txt"] (Some (u "k")) SAMPLE_REPLY 1 0.

(** [GOOGLE_API_KEY] is not set. *)
Definition WORLD_NO_KEY : world :=
  sample_world ACME [u "jd.txt"] None SAMPLE_REPLY 0 0.

(** A job identifier with [.tex] in it. *)
Definition WORLD_TEX_IN_NAME : world :=
  sample_world (u "a.tex") [u "jd.txt"] (Some (u "k")) SAMPLE_REPLY 0 0.

Definition TEX_IN_NAME_SOURCE : str := u "/repo/offers/a.tex/resume-a.tex.tex".

(** Text that ends in two closing fences. *)
Definition TWO_CLOSING_FENCES : str := u "a" ++ NL :: FENCE ++ NL :: FENCE.

(** ** Further vocabulary *)

(** The text holds no whitespace. *)
Definition solid (n : str) : bool := forallb (fun c => negb (isspace c)) n.

(** An entry that [glob] gives for [*.txt]. *)
Definition visible_txt (name : str) : bool :=
  negb (ishidden name) && fnmatch_txt name.

(** The command [compile_pdf] runs. *)
Definition pass_command (w : world) (tex_path company_dir : str) : list str :=
  pdflatex_command (os_path_relpath w company_dir (REPO_ROOT w))
                   (os_path_basename tex_path).

(** The ways [compile_pdf] can end. *)
Inductive compiled (w : world) (tex_path company_dir : str) (t : list event)
  : outcome bool * list event -> Prop :=
| both_pass first second :
    process w t (pass_command w tex_path company_dir) (REPO_ROOT w) = Some first ->
    returncode first = 0%Z ->
    process w (t ++ [pass_event w tex_path company_dir])
            (pass_command w tex_path company_dir) (REPO_ROOT w) = Some second ->
    returncode second = 0%Z ->
    compiled w tex_path company_dir t
             (Ret true,
              t ++ [pass_event w tex_path company_dir;
                    pass_event w tex_path company_dir])
| first_fails first :
    process w t (pass_command w tex_path company_dir) (REPO_ROOT w) = Some first ->
    returncode first <> 0%Z ->
    compiled w tex_path company_dir t
             (Ret false,
              t ++ pass_event w tex_path company_dir
                :: failure_report tex_path company_dir 1 first)
| second_fails first second :
    process w t (pass_command w tex_path company_dir) (REPO_ROOT w) = Some first ->
    returncode first = 0%Z ->
    process w (t ++ [pass_event w tex_path company_dir])
            (pass_command w tex_path company_dir) (REPO_ROOT w) = Some second ->
    returncode second <> 0%Z ->
    compiled w tex_path company_dir t
             (Ret false,
              t ++ pass_event w tex_path company_dir
                :: pass_event w tex_path company_dir
                :: failure_report tex_path company_dir 2 second)
| first_raises :
    process w t (pass_command w tex_path company_dir) (REPO_ROOT w) = None ->
    compiled w tex_path company_dir t
             (Raise RunError, t ++ [pass_event w tex_path company_dir])
| second_raises first :
    process w t (pass_command w tex_path company_dir) (REPO_ROOT w) = Some first ->
    returncode first = 0%Z ->
    process w (t ++ [pass_event w tex_path company_dir])
            (pass_command w tex_path company_dir) (REPO_ROOT w) = None ->
    compiled w tex_path company_dir t
             (Raise RunError,
              t ++ [pass_event w tex_path company_dir;
                    pass_event w tex_path company_dir]).

(** ** Further sample worlds *)

Definition with_argv (w : world) (args : list str) : world :=
  {| REPO_ROOT := REPO_ROOT w; argv := args;
     os_path_isdir := os_path_isdir w;
     os_path_lexists := os_path_lexists w; os_environ_get := os_environ_get w;
     file_text := file_text w; writable := writable w; listdir := listdir w;
     os_path_relpath := os_path_relpath w; llm_reply := llm_reply w;
     process := process w |}.

Definition with_isdir (w : world) (isdir : str -> bool) : world :=
  {| REPO_ROOT := REPO_ROOT w; argv := argv w;
     os_path_isdir := isdir;
     os_path_lexists := os_path_lexists w; os_environ_get := os_environ_get w;
     file_text := file_text w; writable := writable w; listdir := listdir w;
     os_path_relpath := os_path_relpath w; llm_reply := llm_reply w;
     process := process w |}.

Definition with_file_text (w : world) (text : str -> option str) : world :=
  {| REPO_ROOT := REPO_ROOT w; argv := argv w;
     os_path_isdir := os_path_isdir w;
     os_path_lexists := os_path_lexists w; os_environ_get := os_environ_get w;
     file_text := text; writable := writable w; listdir := listdir w;
     os_path_relpath := os_path_relpath w; llm_reply := llm_reply w;
     process := process w |}.

Definition with_writable (w : world) (ok : str -> bool) : world :=
  {| REPO_ROOT := REPO_ROOT w; argv := argv w;
     os_path_isdir := os_path_isdir w;
     os_path_lexists := os_path_lexists w; os_environ_get := os_environ_get w;
     file_text := file_text w; writable := ok; listdir := listdir w;
     os_path_relpath := os_path_relpath w; llm_reply := llm_reply w;
     process := process w |}.

Definition with_llm_reply (w : world) (reply : str -> str -> str -> option str)
  : world :=
  {| REPO_ROOT := REPO_ROOT w; argv := argv w;
     os_path_isdir := os_path_isdir w;
     os_path_lexists := os_path_lexists w; os_environ_get := os_environ_get w;
     file_text := file_text w; writable := writable w; listdir := listdir w;
     os_path_relpath := os_path_relpath w; llm_reply := reply;
     process := process w |}.

(** One argument too few. *)
Definition WORLD_NO_ARGUMENT : world := with_argv WORLD_OK [u "tailor.py"].

(** No job folder, and no key either. *)
Definition WORLD_NO_FOLDER : world := with_isdir WORLD_NO_KEY (fun _ => false).

(** [GOOGLE_API_KEY] is set to the empty text. *)
Definition WORLD_EMPTY_KEY : world :=
  sample_world ACME [u "jd.txt"] (Some []) SAMPLE_REPLY 0 0.

(** No file can be read. *)
Definition WORLD_NO_RESUME : world := with_file_text WORLD_OK (fun _ => None).

(** The posting cannot be read, the resume can. *)
Definition WORLD_POSTING_UNREADABLE : world :=
  with_file_text WORLD_OK
                 (fun path => if endswith path (u ".txt") then None
                              else Some (u "text")).

(** The model call raises. *)
Definition WORLD_MODEL_DOWN : world :=
  with_llm_reply WORLD_OK (fun _ _ _ => None).

(** The job folder cannot be written to. *)
Definition WORLD_READ_ONLY : world := with_writable WORLD_OK (fun _ => false).

Definition with_process (w : world)
           (run : list event -> list str -> str -> option completed) : world :=
  {| REPO_ROOT := REPO_ROOT w; argv := argv w;
     os_path_isdir := os_path_isdir w;
     os_path_lexists := os_path_lexists w; os_environ_get := os_environ_get w;
     file_text := file_text w; writable := writable w; listdir := listdir w;
     os_path_relpath := os_path_relpath w; llm_reply := llm_reply w;
     process := run |}.


(** The usage lines. *)
Definition usage (prog : str) : list event :=
  [PrintErr (u "Usage: " ++ prog ++ u " <offer-folder-name>");
   PrintErr (u "Example: python tailor.py google")].

(** What the run has done when it has read its two inputs. *)
Definition inputs_read (w : world) (first : str) (others : list str)
  : list event :=
  OpenRead (RESUME_TEX w)
  :: match others with
     | [] => []
     | _ :: _ =>
         [PrintErr (u "Warning: Multiple .txt files found, using " ++ first)]
     end
  ++ [OpenRead first].

(** ... and when it has called the model. *)
Definition model_called (w : world) (offer resume first posting : str)
           (others : list str) : list event :=
  inputs_read w first others
  ++ [PrintOut (u "Calling Gemini 3 Pro to tailor CV for '" ++ offer ++ u "'...");
      Invoke MODEL SYSTEM_PROMPT (user_prompt_of resume posting)].

(** ... and when it has written the tailored document. *)
Definition document_written (w : world) (offer tailored : str) : list event :=
  (if has_markers tailored then [] else [PrintErr VALIDATE_WARNING])
  ++ [WriteFile (output_tex_of w offer) tailored;
      PrintOut (u "Tailored .tex saved: " ++ output_tex_of w offer);
      PrintOut (u "Compiling PDF...")].

(** What a run that went through has printed and done. *)
Definition full_run (w : world) (offer resume first posting response : str)
           (others : list str) : list event :=
  model_called w offer resume first posting others
  ++ document_written w offer (strip_markdown_fences response)
  ++ [pass_event w (output_tex_of w offer) (company_dir_of w offer);
      pass_event w (output_tex_of w offer) (company_dir_of w offer);
      PrintOut (u "PDF ready: " ++ pdf_path_of (output_tex_of w offer))].

(** ** Folders whose names hold pattern characters *)

(** The directory whose entries [glob] reads for a job folder. *)
Definition posting_folder (company_dir : str) : str :=
  scandir_arg (os_path_dirname (posting_pattern company_dir)).

(** The entries of [path] in a file tree given as a table. *)
Fixpoint tree_entries (tree : list (str * list str)) (path : str)
  : option (list str) :=
  match tree with
  | [] => None
  | (dir, entries) :: more =>
      if str_eqb dir path then Some entries else tree_entries more path
  end.

(** [path] is a directory of the tree or an entry of one. *)
Definition tree_exists (tree : list (str * list str)) (path : str) : bool :=
  existsb (fun dir =>
             str_eqb (fst dir) path
             || existsb (fun name => str_eqb (os_path_join (fst dir) [name]) path)
                        (snd dir))
          tree.

(** A repository at [/repo] with the directories of [tree]; every file
    reads as [text], the model answers [SAMPLE_REPLY] and the compiler
    exits with status zero. *)
Definition tree_world (offer : str) (tree : list (str * list str)) : world :=
  {| REPO_ROOT := u "/repo";
     argv := [u "tailor.py"; offer];
     os_path_isdir := fun path => match tree_entries tree path with
                                  | Some _ => true
                                  | None => false
                                  end;
     os_path_lexists := tree_exists tree;
     os_environ_get := fun _ => Some (u "k");
     file_text := fun _ => Some (u "text");
     writable := fun _ => true;
     listdir := fun path => match tree_entries tree path with
                            | Some entries => entries
                            | None => []
                            end;
     os_path_relpath := fun path start => skipn (S (length start)) path;
     llm_reply := fun _ _ _ => Some SAMPLE_REPLY;
     process := fun _ _ _ =>
                  Some {| returncode := 0; stdout := u "This is pdfTeX" |} |}.

(** [offers] holds the empty job folder [a*] beside the folder [acme]
    with its posting. *)
Definition STARRED : str := u "a*".
Definition STARRED_DIR : str := u "/repo/offers/a*".
Definition STARRED_TEX : str := u "/repo/offers/a*/resume-a*.tex".

Definition WORLD_STARRED_FOLDER : world :=
  tree_world STARRED
             [(u "/repo/offers", [u "a*"; u "acme"]);
              (u "/repo/offers/a*", []);
              (u "/repo/offers/acme", [u "jd.txt"])].

(** [offers] holds the job folder [c[1]] with its posting. *)
Definition BRACKET : str := u "c[1]".
Definition BRACKET_DIR : str := u "/repo/offers/c[1]".

Definition WORLD_BRACKET_FOLDER : world :=
  tree_world BRACKET
             [(u "/repo/offers", [u "c[1]"]);
              (u "/repo/offers/c[1]", [u "jd.txt"])].

(** The compiler's output cannot be decoded on the second pass. *)
Definition WORLD_SECOND_RAISES : world :=
  with_process WORLD_OK
               (fun t _ _ => if existsb is_run t then None
                             else Some {| returncode := 0;
                                          stdout := u "This is pdfTeX" |}).

(** * Properties *)

(** ** Text *)

Section TextFacts.

Lemma strip_prefix_app (p s : str) : strip_prefix p (p ++ s) = Some s.
Proof.
  induction p as [|x p IH]; simpl; [reflexivity|].
  rewrite N.eqb_refl. exact IH.
Qed.

Lemma strip_prefix_Some (p s r : str) :
  strip_prefix p s = Some r -> s = p ++ r.
Proof.
  revert s; induction p as [|x p IH]; simpl; intros s H.
  - congruence.
  - destruct s as [|y s]; [discriminate|].
    destruct (N.eqb_spec x y) as [->|]; [|discriminate].
    f_equal. now apply IH.
Qed.

Lemma strip_prefix_None (p s : str) :
  strip_prefix p s = None -> forall r, s <> p ++ r.
Proof.
  intros H r ->. rewrite strip_prefix_app in H. discriminate.
Qed.

Lemma startswith_app (p r : str) : startswith (p ++ r) p = true.
Proof. unfold startswith. now rewrite strip_prefix_app. Qed.

Lemma startswith_true (s p : str) :
  startswith s p = true <-> exists r, s = p ++ r.
Proof.
  unfold startswith. split.
  - destruct (strip_prefix p s) as [r|] eqn:E; [|discriminate].
    intros _. exists r. now apply strip_prefix_Some.
  - intros [r ->]. now rewrite strip_prefix_app.
Qed.

Lemma contains_cons (n : str) (c : char) (h : str) :
  contains n (c :: h) = (startswith (c :: h) n || contains n h)%bool.
Proof. reflexivity. Qed.

Lemma contains_occurs (n h : str) : contains n h = true <-> occurs n h.
Proof.
  split.
  - induction h as [|c h IH].
    + simpl. rewrite orb_false_r. intros H.
      apply startswith_true in H. destruct H as [r Hr].
      exists [], r. exact Hr.
    + rewrite contains_cons. intros H. apply orb_true_iff in H.
      destruct H as [H|H].
      * apply startswith_true in H. destruct H as [r Hr].
        exists [], r. exact Hr.
      * destruct (IH H) as (pre & post & ->).
        exists (c :: pre), post. reflexivity.
  - intros (pre & post & ->).
    induction pre as [|c pre IH].
    + simpl app. destruct (n ++ post) as [|c l] eqn:E.
      * simpl. rewrite orb_false_r. rewrite <- E. apply startswith_app.
      * rewrite contains_cons, <- E, startswith_app. reflexivity.
    + simpl app. rewrite contains_cons, IH. apply orb_true_r.
Qed.

Lemma occurs_app_l (n a b : str) : occurs n a -> occurs n (a ++ b).
Proof.
  intros (pre & post & ->). exists pre, (post ++ b).
  now rewrite <- !app_assoc.
Qed.

Lemma occurs_app_r (n a b : str) : occurs n b -> occurs n (a ++ b).
Proof.
  intros (pre & post & ->). exists (a ++ pre), post.
  now rewrite <- !app_assoc.
Qed.

Lemma lstrip_split (s : str) :
  exists a, s = a ++ lstrip s /\ forallb isspace a = true.
Proof.
  induction s as [|c s (a & E & Ha)]; simpl.
  - now exists [].
  - destruct (isspace c) eqn:Hc.
    + exists (c :: a). simpl. rewrite Hc, Ha. split; [now f_equal|reflexivity].
    + now exists [].
Qed.

Lemma lstrip_head (s : str) : head_space (lstrip s) = false.
Proof.
  induction s as [|c s IH]; simpl; [reflexivity|].
  destruct (isspace c) eqn:Hc; [exact IH|]. simpl. exact Hc.
Qed.

Lemma lstrip_id (s : str) : head_space s = false -> lstrip s = s.
Proof. destruct s as [|c s]; simpl; [reflexivity|]. now intros ->. Qed.

Lemma rstrip_split (s : str) :
  exists b, s = rstrip s ++ b /\ forallb isspace b = true.
Proof.
  unfold rstrip. destruct (lstrip_split (rev s)) as (a & E & Ha).
  exists (rev a). split.
  - rewrite <- rev_app_distr, <- E. now rewrite rev_involutive.
  - rewrite forallb_forall in *. intros x Hx. apply Ha. now apply in_rev.
Qed.

Lemma rstrip_tail (s : str) : tail_space (rstrip s) = false.
Proof.
  unfold tail_space, rstrip. rewrite rev_involutive. apply lstrip_head.
Qed.

Lemma rstrip_id (s : str) : tail_space s = false -> rstrip s = s.
Proof.
  unfold tail_space, rstrip. intros H. rewrite lstrip_id by exact H.
  apply rev_involutive.
Qed.

Lemma rstrip_head (s : str) : head_space s = false -> head_space (rstrip s) = false.
Proof.
  intros H. destruct (rstrip_split s) as (b & E & _).
  destruct (rstrip s) as [|c r]; [reflexivity|].
  rewrite E in H. exact H.
Qed.

Lemma strip_split (s : str) :
  exists a b, s = a ++ strip s ++ b
              /\ forallb isspace a = true /\ forallb isspace b = true.
Proof.
  unfold strip. destruct (lstrip_split s) as (a & Ea & Ha).
  destruct (rstrip_split (lstrip s)) as (b & Eb & Hb).
  exists a, b. repeat split; try assumption.
  now rewrite <- Eb.
Qed.

Lemma strip_edges (s : str) :
  head_space (strip s) = false /\ tail_space (strip s) = false.
Proof.
  unfold strip. split.
  - apply rstrip_head, lstrip_head.
  - apply rstrip_tail.
Qed.

Lemma strip_id (s : str) :
  head_space s = false -> tail_space s = false -> strip s = s.
Proof.
  intros Hh Ht. unfold strip. rewrite lstrip_id by exact Hh.
  now apply rstrip_id.
Qed.

Lemma strip_length (s : str) : length (strip s) <= length s.
Proof.
  destruct (strip_split s) as (a & b & E & _).
  rewrite E at 2. rewrite !length_app. lia.
Qed.

Lemma strip_id_inv (s : str) :
  strip s = s -> head_space s = false /\ tail_space s = false.
Proof. intros <-. apply strip_edges. Qed.

End TextFacts.

(** ** The matcher *)

Section MatcherFacts.

Lemma star_cands_extent (p : char -> bool) (s : str) :
  forall pos e rest,
    In (e, rest) (star_cands p pos s) ->
    exists taken, s = taken ++ rest /\ e = pos + length taken.
Proof.
  induction s as [|c s IH]; simpl; intros pos e rest H.
  - destruct H as [H|[]]. inversion H; subst. exists []. simpl. split; [reflexivity|lia].
  - assert (Hhere : (pos, c :: s) = (e, rest) ->
                    exists taken, c :: s = taken ++ rest /\ e = pos + length taken).
    { intros E. inversion E; subst. exists []. simpl. split; [reflexivity|lia]. }
    destruct (p c).
    + apply in_app_or in H. destruct H as [H|[H|[]]]; [|now apply Hhere].
      destruct (IH _ _ _ H) as (taken & -> & ->).
      exists (c :: taken). simpl. split; [reflexivity|lia].
    + destruct H as [H|[]]. now apply Hhere.
Qed.

(** Every way of matching consumes a prefix of the text and moves the
    position by its length. *)
Lemma matches_extent (r : regex) :
  forall pos s e rest,
    In (e, rest) (matches r (pos, s)) ->
    exists taken, s = taken ++ rest /\ e = pos + length taken.
Proof.
  induction r as [| |l|r1 IH1 r2 IH2|r1 IH1 r2 IH2|r IH|p];
    intros pos s e rest H; simpl in H.
  - destruct (Nat.eqb pos 0); [|contradiction].
    destruct H as [H|[]]. inversion H; subst. exists []. simpl. split; [reflexivity|lia].
  - destruct (at_end s); [|contradiction].
    destruct H as [H|[]]. inversion H; subst. exists []. simpl. split; [reflexivity|lia].
  - destruct (strip_prefix l s) as [r'|] eqn:E; [|contradiction].
    destruct H as [H|[]]. inversion H; subst.
    exists l. split; [now apply strip_prefix_Some|reflexivity].
  - apply in_flat_map in H. destruct H as ([e1 s1] & H1 & H2).
    destruct (IH1 _ _ _ _ H1) as (t1 & -> & ->).
    destruct (IH2 _ _ _ _ H2) as (t2 & -> & ->).
    exists (t1 ++ t2). rewrite length_app, <- app_assoc. split; [reflexivity|lia].
  - apply in_app_or in H. destruct H as [H|H]; eauto.
  - apply in_app_or in H. destruct H as [H|[H|[]]]; eauto.
    inversion H; subst. exists []. simpl. split; [reflexivity|lia].
  - now apply star_cands_extent with (p := p).
Qed.

Lemma match_at_extent (r : regex) (pos : nat) (s : str) (ma : bool) (e : nat)
      (rest : str) :
  match_at r pos s ma = Some (e, rest) ->
  exists taken, s = taken ++ rest /\ e = pos + length taken.
Proof.
  unfold match_at. intros H. apply find_some in H.
  now apply matches_extent with (r := r).
Qed.

Lemma match_at_first (r : regex) (pos : nat) (s : str) :
  match_at r pos s false = hd_error (matches r (pos, s)).
Proof.
  unfold match_at. now destruct (matches r (pos, s)).
Qed.

Lemma search_extent (r : regex) (s : str) :
  forall pos ma sk e rest,
    search r pos s ma = Some (sk, (e, rest)) ->
    exists taken, s = sk ++ taken ++ rest
                  /\ e = pos + length sk + length taken.
Proof.
  induction s as [|c s IH]; intros pos ma sk e rest; simpl.
  - destruct (match_at r pos [] ma) as [[e' r']|] eqn:E; [|discriminate].
    intros H. inversion H; subst.
    destruct (match_at_extent _ _ _ _ E) as (taken & Hs & ->).
    exists taken. simpl. split; [exact Hs|lia].
  - destruct (match_at r pos (c :: s) ma) as [[e' r']|] eqn:E.
    + intros H. inversion H; subst.
      destruct (match_at_extent _ _ _ _ E) as (taken & Hs & ->).
      exists taken. simpl. split; [exact Hs|lia].
    + destruct (search r (S pos) s false) as [[sk' [e' r']]|] eqn:E'; [|discriminate].
      intros H. inversion H; subst.
      destruct (IH _ _ _ _ _ E') as (taken & -> & ->).
      exists taken. simpl. split; [reflexivity|lia].
Qed.

(** A pattern anchored with [^] matches nowhere but at the start. *)
Lemma search_anchored (r : regex) (s : str) :
  forall pos ma, 0 < pos -> search (Seq Bol r) pos s ma = None.
Proof.
  induction s as [|c s IH]; intros pos ma Hpos; simpl;
    unfold match_at; simpl;
    destruct (Nat.eqb_spec pos 0) as [->|_]; try lia; simpl.
  - reflexivity.
  - rewrite IH by lia. reflexivity.
Qed.

End MatcherFacts.

Section FuelFacts.

Variable r : regex.

Lemma match_at_advances (pos : nat) (s : str) (e : nat) (rest : str) :
  match_at r pos s true = Some (e, rest) -> e <> pos.
Proof.
  unfold match_at. intros H. apply find_some in H. destruct H as [_ H].
  cbn [fst andb] in H. apply negb_true_iff, Nat.eqb_neq in H. exact H.
Qed.

(** What [search] finds: the text skipped, the text matched and the
    rest; a match that has to advance is not empty where the search
    starts. *)
Lemma search_progress (s : str) :
  forall pos ma sk e rest,
    search r pos s ma = Some (sk, (e, rest)) ->
    exists taken,
      s = sk ++ taken ++ rest
      /\ e = pos + length sk + length taken
      /\ (ma = true -> sk = [] -> taken <> []).
Proof.
  intros pos ma sk e rest H.
  destruct (search_extent _ _ _ _ H) as (taken & Hs & He).
  exists taken. repeat split; try assumption.
  intros -> -> ->. cbn [length app] in *.
  destruct s as [|c s]; cbn [search] in H.
  - destruct (match_at r pos [] true) as [[e' r']|] eqn:E; [|discriminate].
    inversion H; subst. apply match_at_advances in E. lia.
  - destruct (match_at r pos (c :: s) true) as [[e' r']|] eqn:E.
    + inversion H; subst. apply match_at_advances in E. lia.
    + destruct (search r (S pos) s false) as [[sk' m]|]; discriminate.
Qed.

(** The loop of [re.sub] ends before its fuel does: more fuel gives
    the same text. *)
Lemma sub_loop_fuel (repl : str) (fuel : nat) :
  forall pos s (ma : bool),
    2 * length s + (if ma then 0 else 1) < fuel ->
    sub_loop (S fuel) r repl pos s ma = sub_loop fuel r repl pos s ma.
Proof.
  induction fuel as [|fuel IH]; intros pos s ma Hfuel; [lia|].
  cbn [sub_loop].
  destruct (search r pos s ma) as [[sk [e rest]]|] eqn:E; [|reflexivity].
  destruct (search_progress _ _ _ E) as (taken & Hs & He & Hadv).
  do 2 f_equal. apply (IH e rest). subst s e.
  rewrite !length_app in Hfuel.
  destruct (Nat.eqb_spec (pos + length sk + length taken) (pos + length sk))
    as [Hempty|Hmoved].
  - assert (length taken = 0) as Hnil by lia.
    destruct ma.
    + destruct sk as [|c sk]; [|cbn [length] in *; lia].
      destruct taken; [now elim Hadv|discriminate].
    + lia.
  - destruct ma; lia.
Qed.

Lemma re_sub_fuel (repl text : str) (extra : nat) :
  sub_loop (extra + S (S (2 * length text))) r repl 0 text false
  = re_sub r repl text.
Proof.
  unfold re_sub. induction extra as [|extra IH]; [reflexivity|].
  cbn [Nat.add]. rewrite sub_loop_fuel; [exact IH|]. lia.
Qed.

End FuelFacts.

(** ** The closing and the opening pattern *)

Section CloseFacts.

Lemma at_end_cons (c : char) (s : str) :
  at_end (c :: s) = true -> s = [] /\ c = NL.
Proof.
  destruct s; simpl; [|discriminate].
  intros H. apply N.eqb_eq in H. now split.
Qed.

Lemma ws_eol_cons (pos : nat) (c : char) (s : str) :
  matches (Seq (StarSet isspace) Eol) (pos, c :: s)
  = (if isspace c then matches (Seq (StarSet isspace) Eol) (S pos, s) else [])
    ++ (if at_end (c :: s) then [(pos, c :: s)] else []).
Proof.
  cbn [matches star_cands fst snd]. destruct (isspace c).
  - rewrite flat_map_app. cbn [flat_map snd]. now rewrite app_nil_r.
  - cbn [flat_map snd app]. now rewrite app_nil_r.
Qed.

Lemma ws_eol_none (s : str) :
  forall pos, forallb isspace s = false ->
              matches (Seq (StarSet isspace) Eol) (pos, s) = [].
Proof.
  induction s as [|c s IH]; intros pos H; [discriminate|].
  rewrite ws_eol_cons. cbn [forallb] in H.
  destruct (at_end (c :: s)) eqn:E.
  - apply at_end_cons in E. destruct E as [-> ->]. discriminate.
  - destruct (isspace c); [|reflexivity].
    rewrite IH by exact H. reflexivity.
Qed.

Lemma ws_eol_all (s : str) :
  forall pos, forallb isspace s = true ->
              hd_error (matches (Seq (StarSet isspace) Eol) (pos, s))
              = Some (pos + length s, []).
Proof.
  induction s as [|c s IH]; intros pos H.
  - simpl. now rewrite Nat.add_0_r.
  - cbn [forallb] in H. apply andb_true_iff in H. destruct H as [Hc Hs].
    rewrite ws_eol_cons, Hc. specialize (IH (S pos) Hs).
    destruct (matches _ (S pos, _)) as [|m l];
      cbn [hd_error app] in *; [discriminate|]. rewrite IH. cbn [length]. do 2 f_equal. lia.
Qed.

Lemma match_at_close (pos : nat) (s : str) :
  match_at RE_CLOSE pos s false
  = if closes s then Some (pos + length s, []) else None.
Proof.
  rewrite match_at_first. unfold closes, RE_CLOSE.
  change (matches (Seq (Lit (NL :: FENCE)) (Seq (StarSet isspace) Eol)) (pos, s))
    with (flat_map (matches (Seq (StarSet isspace) Eol))
                   (match strip_prefix (NL :: FENCE) s with
                    | Some rest => [(pos + length (NL :: FENCE), rest)]
                    | None => []
                    end)).
  destruct (strip_prefix (NL :: FENCE) s) as [r|] eqn:E; [|reflexivity].
  apply strip_prefix_Some in E. subst s.
  cbn [flat_map]. rewrite app_nil_r.
  destruct (forallb isspace r) eqn:Hr.
  - rewrite ws_eol_all by exact Hr. f_equal. f_equal.
    rewrite length_app. lia.
  - now rewrite ws_eol_none.
Qed.

Lemma search_close (s : str) :
  forall pos,
    search RE_CLOSE pos s false
    = match find_close s with
      | Some sk => Some (sk, (pos + length s, []))
      | None => None
      end.
Proof.
  induction s as [|c s IH]; intros pos.
  - reflexivity.
  - cbn [search find_close]. rewrite match_at_close.
    destruct (closes (c :: s)); [reflexivity|].
    rewrite IH. destruct (find_close s); [|reflexivity].
    simpl. do 3 f_equal. lia.
Qed.

Lemma re_sub_close (t : str) : re_sub RE_CLOSE [] t = drop_close t.
Proof.
  unfold re_sub, drop_close. cbn [sub_loop]. rewrite search_close.
  destruct (find_close t) as [sk|]; [|reflexivity].
  cbn. now rewrite app_nil_r.
Qed.

End CloseFacts.

Section OpenFacts.

Lemma hd_error_app {A} (a b : list A) :
  hd_error (a ++ b)
  = match hd_error a with Some x => Some x | None => hd_error b end.
Proof. now destruct a. Qed.

Lemma isspace_NL : isspace NL = true.
Proof. reflexivity. Qed.

Lemma ws_nl_cons (pos : nat) (c : char) (s : str) :
  matches (Seq (StarSet isspace) (Lit [NL])) (pos, c :: s)
  = (if isspace c then matches (Seq (StarSet isspace) (Lit [NL])) (S pos, s)
     else [])
    ++ (if N.eqb NL c then [(pos + 1, s)] else []).
Proof.
  cbn [matches star_cands fst snd]. destruct (isspace c).
  - rewrite flat_map_app. cbn [flat_map snd fst strip_prefix length].
    destruct (N.eqb NL c); now rewrite ?app_nil_r.
  - cbn [flat_map snd fst strip_prefix length app].
    destruct (N.eqb NL c); now rewrite ?app_nil_r.
Qed.

(** The greedy [\s*] gives back characters down to the last newline of
    the whitespace it took. *)
Lemma ws_nl_first (s : str) :
  forall pos,
    option_map snd (hd_error (matches (Seq (StarSet isspace) (Lit [NL])) (pos, s)))
    = after_ws_nl s.
Proof.
  induction s as [|c s IH]; intros pos; [reflexivity|].
  rewrite ws_nl_cons, hd_error_app. cbn [after_ws_nl].
  destruct (isspace c) eqn:Hc.
  - rewrite <- (IH (S pos)).
    destruct (hd_error (matches _ (S pos, _))) as [m|]; [reflexivity|].
    cbn [option_map]. now destruct (N.eqb NL c).
  - cbn [hd_error]. destruct (N.eqb_spec NL c) as [<-|]; [|reflexivity].
    rewrite isspace_NL in Hc. discriminate.
Qed.

Lemma tag_first (tag : str) (pos : nat) (s : str) :
  option_map snd
    (hd_error (flat_map (matches (Seq (StarSet isspace) (Lit [NL])))
                        (matches (Lit tag) (pos, s))))
  = after_tag tag s.
Proof.
  unfold after_tag. cbn [matches fst snd].
  destruct (strip_prefix tag s) as [r|]; [|reflexivity].
  cbn [flat_map]. rewrite app_nil_r. apply ws_nl_first.
Qed.

Lemma first_app {A B} (f : A -> B) (a b : list A) :
  option_map f (hd_error (a ++ b))
  = match option_map f (hd_error a) with
    | Some x => Some x
    | None => option_map f (hd_error b)
    end.
Proof. now destruct a. Qed.

Lemma open_first (t : str) :
  option_map snd (match_at RE_OPEN 0 t false) = open_rest t.
Proof.
  rewrite match_at_first. unfold RE_OPEN, open_rest.
  cbn [matches fst snd Nat.eqb flat_map]. rewrite app_nil_r.
  destruct (strip_prefix FENCE t) as [r1|]; [|reflexivity].
  cbn [flat_map]. rewrite app_nil_r.
  change (flat_map ?f ?l)
    with (flat_map (matches (Seq (StarSet isspace) (Lit [NL])))
            ((matches (Lit (u "latex")) (0 + length FENCE, r1)
              ++ matches (Lit (u "tex")) (0 + length FENCE, r1))
             ++ [(0 + length FENCE, r1)])).
  rewrite !flat_map_app, !first_app, !tag_first.
  cbn [flat_map]. rewrite app_nil_r, ws_nl_first.
  now destruct (after_tag (u "latex") r1).
Qed.

Lemma open_advances (t : str) (e : nat) (r : str) :
  match_at RE_OPEN 0 t false = Some (e, r) -> 0 < e.
Proof.
  unfold match_at. intros H. apply find_some in H. destruct H as [H _].
  unfold RE_OPEN in H. cbn [matches fst snd Nat.eqb flat_map] in H.
  rewrite app_nil_r in H.
  destruct (strip_prefix FENCE t) as [r1|]; [|contradiction].
  cbn [flat_map] in H. rewrite app_nil_r in H.
  apply (matches_extent
           (Seq (Opt (Alt (Lit (u "latex")) (Lit (u "tex"))))
                (Seq (StarSet isspace) (Lit [NL])))) in H.
  destruct H as (taken & _ & ->). cbn [length FENCE]. lia.
Qed.

Lemma search_open (t : str) :
  search RE_OPEN 0 t false
  = match match_at RE_OPEN 0 t false with
    | Some m => Some ([], m)
    | None => None
    end.
Proof.
  destruct t as [|c t]; cbn [search];
    destruct (match_at RE_OPEN 0 _ false); try reflexivity.
  unfold RE_OPEN. now rewrite search_anchored by lia.
Qed.

Lemma re_sub_open (t : str) : re_sub RE_OPEN [] t = drop_open t.
Proof.
  unfold re_sub, drop_open. cbn [sub_loop]. rewrite search_open, <- open_first.
  destruct (match_at RE_OPEN 0 t false) as [[e r]|] eqn:E; [|reflexivity].
  apply open_advances in E. unfold RE_OPEN at 1.
  rewrite search_anchored by exact E. reflexivity.
Qed.

End OpenFacts.

(** The sanitizer, with both patterns read off. *)
Lemma strip_markdown_fences_eq (text : str) :
  strip_markdown_fences text = drop_close (drop_open (strip text)).
Proof.
  unfold strip_markdown_fences. cbv zeta.
  now rewrite re_sub_close, re_sub_open.
Qed.

(** ** The patterns read off directly *)

Section DirectFacts.

Lemma closes_iff (s : str) :
  closes s = true
  <-> exists W, s = NL :: FENCE ++ W /\ forallb isspace W = true.
Proof.
  unfold closes. split.
  - destruct (strip_prefix (NL :: FENCE) s) as [r|] eqn:E; [|discriminate].
    intros H. exists r. split; [|exact H]. now apply strip_prefix_Some in E.
  - intros (W & -> & H).
    change (NL :: FENCE ++ W) with ((NL :: FENCE) ++ W).
    now rewrite strip_prefix_app.
Qed.

Lemma isspace_BACKTICK : isspace BACKTICK = false.
Proof. reflexivity. Qed.

(** A closing fence cannot begin before the last three backticks of the
    text: what follows it must be whitespace. *)
Lemma closes_inner (c : char) (b W : str) :
  closes (c :: b ++ NL :: FENCE ++ W) = false.
Proof.
  destruct (closes _) eqn:E; [|reflexivity]. exfalso.
  apply closes_iff in E. destruct E as (W' & E & HW').
  destruct b as [|x [|y [|z b]]]; try discriminate E.
  injection E as _ _ _ _ <-.
  rewrite forallb_app in HW'. cbn [forallb FENCE] in HW'.
  rewrite isspace_BACKTICK in HW'.
  rewrite !andb_false_r in HW'. discriminate.
Qed.

Lemma find_close_here (s : str) : closes s = true -> find_close s = Some [].
Proof. intros H. destruct s; cbn [find_close]; now rewrite H. Qed.

Lemma find_close_fence (b W : str) :
  forallb isspace W = true -> find_close (b ++ NL :: FENCE ++ W) = Some b.
Proof.
  intros HW. induction b as [|c b IH].
  - apply find_close_here, closes_iff. now exists W.
  - cbn [app find_close]. now rewrite closes_inner, IH.
Qed.

Lemma find_close_Some (t sk : str) :
  find_close t = Some sk ->
  exists W, t = sk ++ NL :: FENCE ++ W /\ forallb isspace W = true.
Proof.
  revert sk; induction t as [|c t IH]; intros sk; cbn [find_close].
  - destruct (closes []) eqn:E; [|discriminate]. discriminate E.
  - destruct (closes (c :: t)) eqn:E.
    + intros H. inversion H; subst. now apply closes_iff in E.
    + destruct (find_close t) as [sk'|]; [|discriminate].
      intros H. inversion H; subst.
      destruct (IH _ eq_refl) as (W & -> & HW). now exists W.
Qed.

Lemma find_close_shorter (t sk : str) :
  find_close t = Some sk -> length sk < length t.
Proof.
  intros H. apply find_close_Some in H. destruct H as (W & -> & _).
  rewrite length_app. cbn [length]. lia.
Qed.

Lemma after_ws_nl_Some (s r : str) :
  after_ws_nl s = Some r ->
  exists w, s = w ++ NL :: r /\ forallb isspace w = true.
Proof.
  revert r; induction s as [|c s IH]; intros r; cbn [after_ws_nl]; [discriminate|].
  destruct (isspace c) eqn:Hc; [|discriminate].
  destruct (after_ws_nl s) as [r'|].
  - intros H. inversion H; subst.
    destruct (IH _ eq_refl) as (w & -> & Hw).
    exists (c :: w). cbn [forallb app]. now rewrite Hc, Hw.
  - destruct (N.eqb_spec NL c) as [<-|]; [|discriminate].
    intros H. inversion H; subst. now exists [].
Qed.

Lemma after_ws_nl_line (w r : str) :
  forallb isspace w = true -> after_ws_nl (w ++ NL :: r) <> None.
Proof.
  intros Hw. induction w as [|c w IH].
  - cbn [app after_ws_nl]. rewrite isspace_NL, N.eqb_refl.
    now destruct (after_ws_nl r).
  - cbn [forallb] in Hw. apply andb_true_iff in Hw. destruct Hw as [Hc Hw].
    cbn [app after_ws_nl]. rewrite Hc.
    specialize (IH Hw). now destruct (after_ws_nl (w ++ NL :: r)).
Qed.

Lemma after_ws_nl_first_line (w : str) (c : char) (rest : str) :
  forallb (fun a => isspace a && negb (N.eqb NL a)) w = true ->
  isspace c = false ->
  after_ws_nl (w ++ c :: rest) = None.
Proof.
  intros Hw Hc. induction w as [|a w IH].
  - cbn [app after_ws_nl]. now rewrite Hc.
  - cbn [forallb] in Hw. apply andb_true_iff in Hw. destruct Hw as [Ha Hw].
    apply andb_true_iff in Ha. destruct Ha as [Ha Hn].
    cbn [app after_ws_nl]. rewrite Ha, (IH Hw).
    apply negb_true_iff in Hn. now rewrite Hn.
Qed.

Lemma after_tag_Some (tag s r : str) :
  after_tag tag s = Some r ->
  exists w, s = tag ++ w ++ NL :: r /\ forallb isspace w = true.
Proof.
  unfold after_tag. destruct (strip_prefix tag s) as [s'|] eqn:E; [|discriminate].
  intros H. apply strip_prefix_Some in E. subst s.
  apply after_ws_nl_Some in H. destruct H as (w & -> & Hw). now exists w.
Qed.

Lemma open_rest_Some (t r : str) :
  open_rest t = Some r -> exists l, opening_line l /\ t = l ++ r.
Proof.
  unfold open_rest.
  destruct (strip_prefix FENCE t) as [r1|] eqn:E; [|discriminate].
  apply strip_prefix_Some in E. subst t.
  assert (Hshape : forall tag w,
             In tag TAGS -> forallb isspace w = true ->
             r1 = tag ++ w ++ NL :: r ->
             exists l, opening_line l /\ FENCE ++ r1 = l ++ r).
  { intros tag w Ht Hw ->. exists (FENCE ++ tag ++ w ++ [NL]). split.
    - now exists tag, w.
    - now rewrite <- !app_assoc. }
  destruct (after_tag (u "latex") r1) as [x|] eqn:E1.
  - intros H. inversion H; subst.
    apply after_tag_Some in E1. destruct E1 as (w & E1 & Hw).
    apply (Hshape (u "latex") w); [right; now left|assumption..].
  - destruct (after_tag (u "tex") r1) as [x|] eqn:E2.
    + intros H. inversion H; subst.
      apply after_tag_Some in E2. destruct E2 as (w & E2 & Hw).
      apply (Hshape (u "tex") w); [right; right; now left|assumption..].
    + intros H. apply after_ws_nl_Some in H. destruct H as (w & E3 & Hw).
      apply (Hshape [] w); [now left|assumption..].
Qed.

Lemma opening_line_length (l : str) : opening_line l -> 0 < length l.
Proof. intros (tag & w & _ & _ & ->). cbn. lia. Qed.

Lemma open_rest_shorter (t r : str) :
  open_rest t = Some r -> length r < length t.
Proof.
  intros H. apply open_rest_Some in H. destruct H as (l & Hl & ->).
  apply opening_line_length in Hl. rewrite length_app. lia.
Qed.

Lemma after_tag_app (tag s : str) : after_tag tag (tag ++ s) = after_ws_nl s.
Proof. unfold after_tag. now rewrite strip_prefix_app. Qed.

Lemma open_rest_fence (y : str) : starts_with_fence y -> open_rest y <> None.
Proof.
  intros (l & r & (tag & w & Ht & Hw & ->) & ->).
  unfold open_rest. rewrite <- !app_assoc, strip_prefix_app.
  pose proof (@after_ws_nl_line w r Hw) as Hline.
  cbn [app].
  destruct Ht as [<-|[<-|[<-|[]]]].
  - cbn [app]. destruct (after_tag (u "latex") _); [discriminate|].
    destruct (after_tag (u "tex") _); [discriminate|]. exact Hline.
  - rewrite after_tag_app.
    destruct (after_ws_nl (w ++ NL :: r)); [discriminate|]. now elim Hline.
  - destruct (after_tag (u "latex") _); [discriminate|].
    rewrite after_tag_app.
    destruct (after_ws_nl (w ++ NL :: r)); [discriminate|]. now elim Hline.
Qed.

End DirectFacts.

(** ** The sanitizer *)

Section SanitizerFacts.

Lemma tail_space_snoc (s : str) (c : char) : tail_space (s ++ [c]) = isspace c.
Proof. unfold tail_space. now rewrite rev_unit. Qed.

Lemma tail_space_app (a b : str) : b <> [] -> tail_space (a ++ b) = tail_space b.
Proof.
  intros Hb. destruct (exists_last Hb) as (b' & c & ->).
  now rewrite app_assoc, !tail_space_snoc.
Qed.

Lemma trailing_space_nil (a W : str) :
  tail_space (a ++ W) = false -> forallb isspace W = true -> W = [].
Proof.
  intros Ht HW. destruct W as [|x W'] using rev_ind; [reflexivity|].
  rewrite app_assoc, tail_space_snoc in Ht.
  rewrite forallb_app in HW. cbn in HW. rewrite Ht in HW.
  rewrite andb_false_r in HW. discriminate.
Qed.

Lemma find_close_end (b : str) : find_close (b ++ NL :: FENCE) = Some b.
Proof. exact (@find_close_fence b [] eq_refl). Qed.

Lemma drop_open_suffix (t : str) : exists l, t = l ++ drop_open t.
Proof.
  unfold drop_open. destruct (open_rest t) as [r|] eqn:E.
  - apply open_rest_Some in E. destruct E as (l & _ & E). now exists l.
  - now exists [].
Qed.

Lemma drop_close_prefix (t : str) : exists q, t = drop_close t ++ q.
Proof.
  unfold drop_close. destruct (find_close t) as [sk|] eqn:E.
  - apply find_close_Some in E. destruct E as (W & E & _).
    now exists (NL :: FENCE ++ W).
  - exists []. now rewrite app_nil_r.
Qed.

Lemma drop_open_length (t : str) : length (drop_open t) <= length t.
Proof.
  destruct (drop_open_suffix t) as (l & E). rewrite E at 2.
  rewrite length_app. lia.
Qed.

Lemma drop_close_length (t : str) : length (drop_close t) <= length t.
Proof.
  destruct (drop_close_prefix t) as (q & E). rewrite E at 2.
  rewrite length_app. lia.
Qed.

Lemma drop_open_fixed (t : str) :
  length t <= length (drop_open t) -> open_rest t = None.
Proof.
  unfold drop_open. destruct (open_rest t) as [r|] eqn:E; [|reflexivity].
  apply open_rest_shorter in E. lia.
Qed.

Lemma drop_close_fixed (t : str) :
  length t <= length (drop_close t) -> find_close t = None.
Proof.
  unfold drop_close. destruct (find_close t) as [sk|] eqn:E; [|reflexivity].
  apply find_close_shorter in E. lia.
Qed.

Lemma smf_decomp (x : str) :
  exists pre post, x = pre ++ strip_markdown_fences x ++ post.
Proof.
  rewrite strip_markdown_fences_eq.
  destruct (strip_split x) as (a & b & Ex & _ & _).
  destruct (drop_open_suffix (strip x)) as (l & El).
  destruct (drop_close_prefix (drop_open (strip x))) as (q & Eq).
  exists (a ++ l), (q ++ b).
  rewrite <- app_assoc, (app_assoc _ q b), <- Eq, (app_assoc l), <- El.
  exact Ex.
Qed.

Lemma smf_length (x : str) :
  length (strip_markdown_fences x) <= length x.
Proof.
  destruct (smf_decomp x) as (pre & post & E).
  rewrite E at 2. rewrite !length_app. lia.
Qed.

(** The sanitizer leaves clean text as it is. *)
Lemma smf_clean (y : str) : clean y -> strip_markdown_fences y = y.
Proof.
  intros (Hh & Ht & Hopen & Hclose).
  rewrite strip_markdown_fences_eq, (strip_id _ Hh Ht).
  unfold drop_open.
  destruct (open_rest y) as [r|] eqn:E.
  - exfalso. apply Hopen. apply open_rest_Some in E.
    destruct E as (l & Hl & E). now exists l, r.
  - unfold drop_close.
    destruct (find_close y) as [sk|] eqn:E'; [|reflexivity].
    exfalso. apply Hclose. apply find_close_Some in E'.
    destruct E' as (W & E' & HW). exists sk.
    assert (W = []) as ->.
    { apply trailing_space_nil with (a := sk ++ NL :: FENCE); [|exact HW].
      rewrite <- app_assoc. cbn [app]. now rewrite <- E'. }
    now rewrite app_nil_r in E'.
Qed.

Lemma same_length_middle (a m b : str) :
  length (a ++ m ++ b) <= length m -> a ++ m ++ b = m.
Proof.
  rewrite !length_app. intros H.
  destruct a; [|cbn in H; lia]. destruct b; [|cbn in H; lia].
  cbn. now rewrite app_nil_r.
Qed.

(** Only clean text is left as it is. *)
Lemma smf_fixed (y : str) : strip_markdown_fences y = y -> clean y.
Proof.
  intros Hfix. rewrite strip_markdown_fences_eq in Hfix.
  pose proof (strip_length y) as L1.
  pose proof (drop_open_length (strip y)) as L2.
  pose proof (drop_close_length (drop_open (strip y))) as L3.
  rewrite Hfix in L3.
  assert (Hstrip : strip y = y).
  { destruct (strip_split y) as (a & b & E & _ & _).
    rewrite E at 2. symmetry. apply same_length_middle.
    rewrite <- E. lia. }
  destruct (strip_id_inv Hstrip) as [Hh Ht].
  rewrite Hstrip in L2, L3.
  assert (Hopen : open_rest y = None) by (apply drop_open_fixed; lia).
  assert (Hdrop : drop_open y = y) by (unfold drop_open; now rewrite Hopen).
  rewrite Hstrip, Hdrop in Hfix.
  assert (Hclose : find_close y = None)
    by (apply drop_close_fixed; rewrite Hfix; lia).
  repeat split; try assumption.
  - intros H. now apply open_rest_fence in H.
  - intros (b & E). rewrite E, find_close_end in Hclose. discriminate.
Qed.

Lemma occurs_strip (n x : str) : occurs n (strip x) -> occurs n x.
Proof.
  intros H. destruct (strip_split x) as (a & b & E & _ & _).
  rewrite E. now apply occurs_app_r, occurs_app_l.
Qed.

(** Without three backticks in a row the sanitizer only trims. *)
Lemma smf_no_fence (x : str) :
  contains FENCE x = false -> strip_markdown_fences x = strip x.
Proof.
  intros H. rewrite strip_markdown_fences_eq. unfold drop_close, drop_open.
  assert (Hno : ~ occurs FENCE (strip x)).
  { intros Ho. apply occurs_strip, contains_occurs in Ho. congruence. }
  destruct (open_rest (strip x)) as [r|] eqn:E1.
  - exfalso. apply Hno. apply open_rest_Some in E1.
    destruct E1 as (l & (tag & w & _ & _ & ->) & ->).
    exists [], ((tag ++ w ++ [NL]) ++ r). cbn [app]. now rewrite <- !app_assoc.
  - destruct (find_close (strip x)) as [sk|] eqn:E2; [|reflexivity].
    exfalso. apply Hno. apply find_close_Some in E2.
    destruct E2 as (W & -> & _). now exists (sk ++ [NL]), W; rewrite <- app_assoc.
Qed.

Lemma after_tag_latex_NL (s : str) : after_tag (u "latex") (NL :: s) = None.
Proof. reflexivity. Qed.

Lemma after_tag_tex_NL (s : str) : after_tag (u "tex") (NL :: s) = None.
Proof. reflexivity. Qed.

Lemma after_tag_latex_tex (s : str) : after_tag (u "latex") (u "tex" ++ s) = None.
Proof. reflexivity. Qed.

(** A body wrapped in a fence with one of the known tags comes back. *)
Lemma smf_wrap (tag body : str) :
  In tag TAGS -> starts_on_first_line body ->
  strip_markdown_fences (wrap tag body) = body.
Proof.
  intros Htag (w & c & rest & Hbody & Hw & Hc).
  rewrite strip_markdown_fences_eq. unfold wrap, drop_close, drop_open.
  rewrite strip_id.
  - assert (Hline : after_ws_nl (NL :: body ++ NL :: FENCE)
                    = Some (body ++ NL :: FENCE)).
    { cbn [after_ws_nl]. rewrite isspace_NL, N.eqb_refl.
      rewrite Hbody, <- app_assoc. cbn [app].
      now rewrite after_ws_nl_first_line. }
    assert (Hopen : open_rest (FENCE ++ tag ++ NL :: body ++ NL :: FENCE)
                    = Some (body ++ NL :: FENCE)).
    { unfold open_rest. rewrite strip_prefix_app.
      destruct Htag as [<-|[<-|[<-|[]]]].
      - cbn [app]. now rewrite after_tag_latex_NL, after_tag_tex_NL.
      - now rewrite after_tag_app, Hline.
      - now rewrite after_tag_latex_tex, after_tag_app, Hline. }
    rewrite Hopen. now rewrite find_close_end.
  - reflexivity.
  - replace (FENCE ++ tag ++ NL :: body ++ NL :: FENCE)
      with ((FENCE ++ tag ++ NL :: body ++ [NL]) ++ FENCE).
    + now rewrite tail_space_app.
    + rewrite <- !app_assoc. cbn [app]. now rewrite <- !app_assoc.
Qed.

End SanitizerFacts.

(** ** Effects *)

Ltac run :=
  cbv [bind when ret sys_exit raise emit print print_err item history
       read_text write_text llm_invoke subprocess_run];
  cbn [nth_error negb orb andb Nat.eqb length fst snd app exit_status].

(** A run that stopped early: the facts about its outcome and trace hold
    by evaluation, and the case at hand contradicts any other path. *)
Ltac stopped :=
  repeat split; try discriminate; try reflexivity; intros; congruence.

Section EffectFacts.

Lemma extends_ret {A} (a : A) : extends (ret a).
Proof. intros t. exists []. cbn. now rewrite app_nil_r. Qed.

Lemma extends_exit {A} (c : Z) : extends (@sys_exit A c).
Proof. intros t. exists []. cbn. now rewrite app_nil_r. Qed.

Lemma extends_raise {A} (e : exn) : extends (@raise A e).
Proof. intros t. exists []. cbn. now rewrite app_nil_r. Qed.

Lemma extends_emit (e : event) : extends (emit e).
Proof. intros t. now exists [e]. Qed.

Lemma extends_bind {A B} (m : M A) (f : A -> M B) :
  extends m -> (forall a, extends (f a)) -> extends (bind m f).
Proof.
  intros Hm Hf t. unfold bind. destruct (Hm t) as (evs & E).
  destruct (m t) as [[a|c|e] t']; cbn [snd] in E; subst t'.
  - destruct (Hf a (t ++ evs)) as (evs' & E'). exists (evs ++ evs').
    now rewrite E', app_assoc.
  - now exists evs.
  - now exists evs.
Qed.

Lemma extends_subprocess_run (w : world) (args : list str) (cwd : str) :
  extends (subprocess_run w args cwd).
Proof.
  intros t. unfold subprocess_run. run.
  exists [Run args cwd]. now destruct (process w t args cwd).
Qed.

Lemma extends_compile_passes (w : world) (f o d : str) (passes : list nat) :
  extends (compile_passes w f o d passes).
Proof.
  induction passes as [|n passes IH]; cbn [compile_passes].
  - apply extends_ret.
  - apply extends_bind; [apply extends_subprocess_run|].
    intros result. destruct (negb _); [|exact IH].
    repeat (apply extends_bind; [apply extends_emit|intros _]).
    apply extends_ret.
Qed.

Lemma extends_compile_pdf (w : world) (tex_path company_dir : str) :
  extends (compile_pdf w tex_path company_dir).
Proof. apply extends_compile_passes. Qed.

Lemma validate_latex_run (text : str) (t : list event) :
  validate_latex text t
  = (Ret (has_markers text),
     t ++ if has_markers text then [] else [PrintErr VALIDATE_WARNING]).
Proof.
  unfold validate_latex, has_markers.
  destruct (contains BEGIN_DOCUMENT text), (contains END_DOCUMENT text);
    run; now rewrite ?app_nil_r.
Qed.

(** Whatever the compiler does, [compile_pdf] begins by running it. *)
Lemma compile_pdf_starts (w : world) (tex_path company_dir : str)
      (t : list event) :
  exists evs,
    snd (compile_pdf w tex_path company_dir t)
    = t ++ pass_event w tex_path company_dir :: evs.
Proof.
  unfold compile_pdf, pass_event. cbn [compile_passes]. run.
  destruct (process w t _ _) as [result|]; [|now exists []].
  destruct (negb _); run.
  - eexists. rewrite <- !app_assoc. reflexivity.
  - destruct (process w _ _ _) as [result2|]; [destruct (negb _)|]; run;
      eexists; rewrite <- ?app_assoc; cbn [app]; reflexivity.
Qed.

End EffectFacts.


(** ** The locator *)

Section LocatorFacts.

Variable w : world.

Lemma find_job_posting_some (company_dir first : str) (others : list str)
      (t : list event) :
  glob_txt w (posting_pattern company_dir) = first :: others ->
  find_job_posting w company_dir t
  = (Ret first,
     t ++ match others with
          | [] => []
          | _ :: _ =>
              [PrintErr (u "Warning: Multiple .txt files found, using " ++ first)]
          end).
Proof.
  unfold find_job_posting, posting_pattern. intros ->. run.
  destruct others; cbn; [now rewrite app_nil_r|reflexivity].
Qed.

Lemma find_job_posting_none (company_dir : str) (t : list event) :
  glob_txt w (posting_pattern company_dir) = [] ->
  find_job_posting w company_dir t
  = (Exit 1,
     t ++ [PrintErr (u "Error: No .txt file found in " ++ company_dir);
           PrintErr (u "Place the job posting as a .txt file in the offer folder.")]).
Proof.
  unfold find_job_posting, posting_pattern. intros ->. run.
  now rewrite <- app_assoc.
Qed.

End LocatorFacts.


(** ** The compiler invoker and the paths it reports *)

Section CompilerFacts.




End CompilerFacts.


Section ReplaceFacts.

Lemma replace_from_skip_all (old new s : str) :
  replace_from old new (length s) s = [].
Proof. induction s as [|c s IH]; [reflexivity|exact IH]. Qed.

(** An occurrence that begins before the last one ends before it. *)
Lemma startswith_shorter (b old : str) :
  b <> [] -> old <> [] ->
  startswith (b ++ old) old = true ->
  startswith (b ++ removelast old) old = true.
Proof.
  intros Hb Hold H. apply startswith_true in H. destruct H as (r & E).
  apply startswith_true. exists (removelast r).
  assert (Hr : r <> []).
  { intros ->. apply (f_equal (@length char)) in E.
    rewrite !length_app in E. destruct b; [congruence|]. cbn in E. lia. }
  rewrite <- (removelast_app old Hr), <- E.
  now rewrite removelast_app.
Qed.

Lemma replace_suffix (stem old new : str) :
  old <> [] ->
  contains old (stem ++ removelast old) = false ->
  replace (stem ++ old) old new = stem ++ new.
Proof.
  intros Hold. unfold replace. destruct old as [|c old]; [congruence|].
  induction stem as [|a stem IH]; intros Hno.
  - cbn [app replace_from].
    pose proof (startswith_app (c :: old) []) as Hself.
    rewrite app_nil_r in Hself. rewrite Hself. cbn [length pred].
    now rewrite replace_from_skip_all, app_nil_r.
  - cbn [app] in *. rewrite contains_cons in Hno.
    apply orb_false_iff in Hno. destruct Hno as [Hhere Hlater].
    cbn [replace_from].
    destruct (startswith (a :: stem ++ c :: old) (c :: old)) eqn:E.
    + apply (@startswith_shorter (a :: stem) (c :: old)) in E;
        try discriminate.
      cbn [app] in E. congruence.
    + now rewrite IH.
Qed.

Lemma log_path_of_stem (stem company_dir : str) :
  contains (u ".tex") (stem ++ u ".te") = false ->
  log_path_of (stem ++ u ".tex") company_dir
  = os_path_join company_dir [stem ++ u ".log"].
Proof.
  intros H. unfold log_path_of. rewrite replace_suffix; [reflexivity|discriminate|exact H].
Qed.

Lemma pdf_path_of_stem (stem : str) :
  contains (u ".tex") (stem ++ u ".te") = false ->
  pdf_path_of (stem ++ u ".tex") = stem ++ u ".pdf".
Proof.
  intros H. unfold pdf_path_of. rewrite replace_suffix; [reflexivity|discriminate|exact H].
Qed.

End ReplaceFacts.

(** ** The artifact path *)

Section ArtifactFacts.

Variable w : world.

Lemma output_tex_stem (offer : str) :
  output_tex_of w offer
  = os_path_join (company_dir_of w offer) [u "resume-" ++ offer] ++ u ".tex".
Proof.
  unfold output_tex_of. cbn [os_path_join].
  change (startswith (u "resume-" ++ offer ++ u ".tex") [SEP]) with false.
  change (startswith (u "resume-" ++ offer) [SEP]) with false.
  cbv iota. destruct (_ || _)%bool; now rewrite <- !app_assoc.
Qed.

(** Where [.tex] occurs only as the extension, the artifact has the
    source document's base name. *)
Lemma pdf_path_same_base (offer : str) :
  let stem := os_path_join (company_dir_of w offer) [u "resume-" ++ offer] in
  contains (u ".tex") (stem ++ u ".te") = false ->
  pdf_path_of (output_tex_of w offer) = stem ++ u ".pdf".
Proof.
  intros stem H. rewrite output_tex_stem. now apply pdf_path_of_stem.
Qed.

End ArtifactFacts.


(** ** Two runs from end to end *)

(** One posting, a well-formed reply and two passes that succeed: the
    tailored document is written, nothing goes to the error stream, the
    artifact is announced next to it and the status is zero. *)
Example run_succeeds :
  main WORLD_OK []
  = (Ret tt,
     [OpenRead (u "/repo/resume.tex");
      OpenRead (u "/repo/offers/acme/jd.txt");
      PrintOut (u "Calling Gemini 3 Pro to tailor CV for 'acme'...");
      Invoke MODEL SYSTEM_PROMPT (user_prompt_of (u "text") (u "text"));
      WriteFile ACME_TEX (u "\begin{document}Hello\end{document}");
      PrintOut (u "Tailored .tex saved: /repo/offers/acme/resume-acme.tex");
      PrintOut (u "Compiling PDF...");
      pass_event WORLD_OK ACME_TEX ACME_DIR;
      pass_event WORLD_OK ACME_TEX ACME_DIR;
      PrintOut (u "PDF ready: /repo/offers/acme/resume-acme.pdf")]).
Proof. vm_compute. reflexivity. Qed.

(** The same with a first pass that fails: the tailored document is
    written all the same, the log is pointed at and the status is one. *)
Example run_fails_at_first_pass :
  main WORLD_PASS1_FAILS []
  = (Exit 1,
     [OpenRead (u "/repo/resume.tex");
      OpenRead (u "/repo/offers/acme/jd.txt");
      PrintOut (u "Calling Gemini 3 Pro to tailor CV for 'acme'...");
      Invoke MODEL SYSTEM_PROMPT (user_prompt_of (u "text") (u "text"));
      WriteFile ACME_TEX (u "\begin{document}Hello\end{document}");
      PrintOut (u "Tailored .tex saved: /repo/offers/acme/resume-acme.tex");
      PrintOut (u "Compiling PDF...");
      pass_event WORLD_PASS1_FAILS ACME_TEX ACME_DIR;
      PrintErr (u "Error: pdflatex pass 1 failed.");
      PrintErr (u "Check the log: /repo/offers/acme/resume-acme.log");
      PrintErr (u "This is pdfTeX");
      PrintOut (u "PDF compilation failed. The .tex file is saved for manual inspection.")]).
Proof. vm_compute. reflexivity. Qed.

(** * The claims *)

(** C1, as the code has it: the sanitizer leaves a text as it is
    exactly when the text is clean, that is without whitespace at either
    end, without an opening fence line at its start and without a
    closing fence at its end; so a second pass changes nothing exactly
    when the first left clean text. *)
Theorem sanitizer_idempotent_iff_clean (x : str) :
  (strip_markdown_fences x = x <-> clean x)
  /\ (strip_markdown_fences (strip_markdown_fences x) = strip_markdown_fences x
      <-> clean (strip_markdown_fences x)).
Proof. split; (split; [apply smf_fixed|apply smf_clean]). Qed.

(** C1 fails as stated: of two closing fences one pass removes only the
    last. *)
Lemma sanitizer_not_idempotent :
  strip_markdown_fences TWO_CLOSING_FENCES = u "a" ++ NL :: FENCE
  /\ strip_markdown_fences (strip_markdown_fences TWO_CLOSING_FENCES) = u "a"
  /\ strip_markdown_fences (strip_markdown_fences TWO_CLOSING_FENCES)
     <> strip_markdown_fences TWO_CLOSING_FENCES.
Proof. vm_compute. repeat split. discriminate. Qed.

(** C2, as the code has it: a body that begins on its first line and is
    wrapped in a fence whose tag is absent, [latex] or [tex] in lower
    case comes back as it was; text without three backticks in a row
    comes back with the whitespace at its ends removed and is otherwise
    unchanged. *)
Theorem sanitizer_unwraps_known_tags (tag body x : str) :
  In tag TAGS ->
  starts_on_first_line body ->
  contains FENCE x = false ->
  strip_markdown_fences (wrap tag body) = body
  /\ strip_markdown_fences x = strip x.
Proof.
  intros Htag Hbody Hx. split; [now apply smf_wrap|now apply smf_no_fence].
Qed.

Lemma sanitizer_unwraps_known_tags_witness :
  (In (u "latex") TAGS
   /\ starts_on_first_line (u "\documentclass{article}")
   /\ contains FENCE (u " plain text ") = false)
  /\ strip_markdown_fences (wrap (u "latex") (u "\documentclass{article}"))
     = u "\documentclass{article}"
  /\ strip_markdown_fences (u " plain text ") = strip (u " plain text ").
Proof.
  assert (Htag : In (u "latex") TAGS) by (right; left; reflexivity).
  assert (Hbody : starts_on_first_line (u "\documentclass{article}")).
  { exists [], 92%N, (u "documentclass{article}"). repeat split. }
  assert (Hx : contains FENCE (u " plain text ") = false) by reflexivity.
  split; [repeat split; assumption|].
  exact (@sanitizer_unwraps_known_tags _ _ _ Htag Hbody Hx).
Defined.

(** C2 fails as stated: an upper-case tag keeps the opening fence in
    place, an empty body leaves the closing fence behind, and text
    without any fence loses the whitespace at its ends. *)
Lemma sanitizer_keeps_upper_case_tag :
  strip_markdown_fences (wrap (u "LATEX") (u "body"))
  = FENCE ++ u "LATEX" ++ NL :: u "body"
  /\ strip_markdown_fences (wrap (u "LATEX") (u "body")) <> u "body"
  /\ strip_markdown_fences (wrap (u "latex") []) = FENCE
  /\ contains FENCE (u " body") = false
  /\ strip_markdown_fences (u " body") = u "body"
  /\ strip_markdown_fences (u " body") <> u " body".
Proof. vm_compute. repeat split; discriminate. Qed.

(** C3. [validate_latex] returns true exactly when both
    [\begin{document}] and [\end{document}] occur in the text, wherever
    and in whatever order; otherwise it returns false.  It never raises
    or exits. *)
Theorem validate_latex_iff_both_markers (text : str) (t : list event) :
  (fst (validate_latex text t) = Ret true
   <-> occurs BEGIN_DOCUMENT text /\ occurs END_DOCUMENT text)
  /\ (fst (validate_latex text t) = Ret true
      \/ fst (validate_latex text t) = Ret false).
Proof.
  unfold validate_latex. rewrite <- !contains_occurs.
  destruct (contains BEGIN_DOCUMENT text), (contains END_DOCUMENT text);
    cbn; (split; [split|]); try tauto; try discriminate;
    intros [? ?]; discriminate.
Qed.


(** C4. Whatever the model returns, once the run has its reply it
    writes the sanitized reply to the tailored document's path and goes
    on to the compiler; when the reply lacks a marker the only thing
    between the call and the write is one warning on the error stream,
    and when it has both, nothing. *)
Theorem validation_never_gates_the_write
        (w : world) (prog offer resume first posting response : str)
        (others : list str) :
  argv w = [prog; offer] ->
  os_path_isdir w (company_dir_of w offer) = true ->
  env_missing w API_KEY = false ->
  file_text w (RESUME_TEX w) = Some resume ->
  glob_txt w (posting_pattern (company_dir_of w offer)) = first :: others ->
  file_text w first = Some posting ->
  llm_reply w MODEL SYSTEM_PROMPT (user_prompt_of resume posting)
  = Some response ->
  writable w (output_tex_of w offer) = true ->
  let tailored := strip_markdown_fences response in
  exists before after,
    snd (main w [])
    = before
      ++ Invoke MODEL SYSTEM_PROMPT (user_prompt_of resume posting)
      :: (if has_markers tailored then [] else [PrintErr VALIDATE_WARNING])
      ++ WriteFile (output_tex_of w offer) tailored
      :: PrintOut (u "Tailored .tex saved: " ++ output_tex_of w offer)
      :: PrintOut (u "Compiling PDF...")
      :: pass_event w (output_tex_of w offer) (company_dir_of w offer)
      :: after.
Proof.
  intros Hargv Hdir Hkey Hresume Hglob Hposting Hreply Hwrite tailored.
  unfold main. rewrite Hargv. run. rewrite Hdir, Hkey, Hresume. run.
  rewrite find_job_posting_some with (first := first) (others := others)
    by exact Hglob.
  run. rewrite Hposting. run. rewrite Hreply. run.
  fold tailored. rewrite validate_latex_run, Hwrite.
  set (warned := match others with
                 | [] => []
                 | _ :: _ => [PrintErr (u "Warning: Multiple .txt files found, using " ++ first)]
                 end).
  exists (OpenRead (RESUME_TEX w)
          :: warned
          ++ [OpenRead first;
              PrintOut (u "Calling Gemini 3 Pro to tailor CV for '" ++ offer ++ u "'...")]).
  match goal with
  | |- context [compile_pdf ?w ?a ?b ?T] =>
      destruct (compile_pdf_starts w a b T) as (evs & E);
      destruct (compile_pdf w a b T) as [[[|]|c|e] t']
  end;
    cbn [snd] in E; subst t'; run;
    eexists; rewrite <- ?app_assoc; cbn [app]; reflexivity.
Qed.

Lemma validation_never_gates_the_write_witness :
  exists before after,
    snd (main WORLD_NO_MARKERS [])
    = before
      ++ Invoke MODEL SYSTEM_PROMPT (user_prompt_of (u "text") (u "text"))
      :: [PrintErr VALIDATE_WARNING]
      ++ WriteFile ACME_TEX (u "no markers")
      :: PrintOut (u "Tailored .tex saved: " ++ ACME_TEX)
      :: PrintOut (u "Compiling PDF...")
      :: pass_event WORLD_NO_MARKERS ACME_TEX ACME_DIR
      :: after.
Proof.
  exact (@validation_never_gates_the_write
           WORLD_NO_MARKERS (u "tailor.py") ACME (u "text")
           (u "/repo/offers/acme/jd.txt") (u "text") (u "no markers") []
           eq_refl eq_refl eq_refl eq_refl eq_refl eq_refl eq_refl eq_refl).
Defined.

(** C5 on the code: for the job identifier [a*], whose folder is empty,
    [glob] reads the folder name as a pattern and gives the posting of
    the folder [acme].  The run reads that posting, calls the model and
    writes the tailored document into the empty folder; it ends with
    status zero. *)
Theorem starred_folder_takes_sibling_posting :
  os_path_isdir WORLD_STARRED_FOLDER STARRED_DIR = true
  /\ listdir WORLD_STARRED_FOLDER STARRED_DIR = []
  /\ company_dir_of WORLD_STARRED_FOLDER STARRED = STARRED_DIR
  /\ glob_txt WORLD_STARRED_FOLDER (posting_pattern STARRED_DIR)
     = [u "/repo/offers/acme/jd.txt"]
  /\ exit_status (fst (main WORLD_STARRED_FOLDER [])) = 0%Z
  /\ In (OpenRead (u "/repo/offers/acme/jd.txt"))
        (snd (main WORLD_STARRED_FOLDER []))
  /\ existsb is_invoke (snd (main WORLD_STARRED_FOLDER [])) = true
  /\ In (WriteFile STARRED_TEX (u "\begin{document}Hello\end{document}"))
        (snd (main WORLD_STARRED_FOLDER [])).
Proof.
  vm_compute. repeat split.
  - right. left. reflexivity.
  - do 4 right. left. reflexivity.
Qed.

(** C6 on the code: the folder [c[1]] holds the posting [jd.txt], which
    matches [*.txt], and the locator exits with status one after its
    two not-found lines: [glob] reads [c[1]] as the pattern of the name
    [c1]. *)
Theorem bracket_folder_posting_not_found :
  os_path_isdir WORLD_BRACKET_FOLDER BRACKET_DIR = true
  /\ listdir WORLD_BRACKET_FOLDER BRACKET_DIR = [u "jd.txt"]
  /\ fnmatchcase (u "jd.txt") (u "*.txt") = true
  /\ fnmatchcase BRACKET BRACKET = false
  /\ glob_txt WORLD_BRACKET_FOLDER (posting_pattern BRACKET_DIR) = []
  /\ find_job_posting WORLD_BRACKET_FOLDER BRACKET_DIR []
     = (Exit 1,
        [PrintErr (u "Error: No .txt file found in /repo/offers/c[1]");
         PrintErr (u "Place the job posting as a .txt file in the offer folder.")]).
Proof. vm_compute. repeat split. Qed.




(** C8. With the credential variable unset the run exits with a
    non-zero status having made no model call and opened no file: all
    it has done is print to the error stream. *)
Theorem missing_credential_exits_first (w : world) :
  os_environ_get w API_KEY = None ->
  exit_status (fst (main w [])) <> 0%Z
  /\ existsb is_invoke (snd (main w [])) = false
  /\ existsb is_open_read (snd (main w [])) = false
  /\ forallb is_print_err (snd (main w [])) = true.
Proof.
  intros Hkey. unfold main, env_missing. rewrite Hkey.
  destruct (argv w) as [|prog [|offer [|extra more]]]; run;
    try solve [stopped].
  destruct (os_path_isdir w (company_dir_of w offer)); run; stopped.
Qed.

Lemma missing_credential_exits_first_witness :
  os_environ_get WORLD_NO_KEY API_KEY = None
  /\ exit_status (fst (main WORLD_NO_KEY [])) <> 0%Z
  /\ existsb is_invoke (snd (main WORLD_NO_KEY [])) = false
  /\ existsb is_open_read (snd (main WORLD_NO_KEY [])) = false
  /\ forallb is_print_err (snd (main WORLD_NO_KEY [])) = true.
Proof.
  split; [reflexivity|].
  exact (@missing_credential_exits_first WORLD_NO_KEY eq_refl).
Defined.

(** C9 on the code: for the job identifier [a.tex] the run compiles
    [offers/a.tex/resume-a.tex.tex] and reports the artifact at
    [offers/a.pdf/resume-a.pdf.pdf], which is neither in the job folder
    nor named after the source document. *)
Theorem artifact_path_misreported :
  output_tex_of WORLD_TEX_IN_NAME (u "a.tex") = TEX_IN_NAME_SOURCE
  /\ exit_status (fst (main WORLD_TEX_IN_NAME [])) = 0%Z
  /\ In (WriteFile TEX_IN_NAME_SOURCE (u "\begin{document}Hello\end{document}"))
        (snd (main WORLD_TEX_IN_NAME []))
  /\ last (snd (main WORLD_TEX_IN_NAME [])) (PrintOut [])
     = PrintOut (u "PDF ready: /repo/offers/a.pdf/resume-a.pdf.pdf")
  /\ pdf_path_of TEX_IN_NAME_SOURCE <> u "/repo/offers/a.tex/resume-a.tex.pdf".
Proof.
  vm_compute. repeat split; try discriminate.
  do 4 right. left. reflexivity.
Qed.

(** C10. The sanitizer's output is a run of consecutive characters of
    its input, what is left when a prefix and a suffix are removed, and
    so is never longer than the input. *)
Theorem sanitizer_output_is_substring (x : str) :
  occurs (strip_markdown_fences x) x
  /\ length (strip_markdown_fences x) <= length x.
Proof. split; [apply smf_decomp|apply smf_length]. Qed.

(** * Further properties *)

(** ** The sanitizer *)

Section TrimFacts.

Lemma lstrip_all_space (a : str) : forallb isspace a = true -> lstrip a = [].
Proof.
  induction a as [|c a IH]; [reflexivity|]. cbn [forallb lstrip].
  intros H. apply andb_true_iff in H. destruct H as [-> H]. now apply IH.
Qed.

Lemma lstrip_app_space (a s : str) :
  forallb isspace a = true -> lstrip (a ++ s) = lstrip s.
Proof.
  induction a as [|c a IH]; [reflexivity|]. cbn [forallb app lstrip].
  intros H. apply andb_true_iff in H. destruct H as [-> H]. now apply IH.
Qed.

Lemma lstrip_app (s b : str) :
  lstrip (s ++ b) = if forallb isspace s then lstrip b else lstrip s ++ b.
Proof.
  induction s as [|c s IH]; [reflexivity|]. cbn [forallb app lstrip].
  destruct (isspace c); [exact IH|reflexivity].
Qed.

Lemma rstrip_app_space (s b : str) :
  forallb isspace b = true -> rstrip (s ++ b) = rstrip s.
Proof.
  intros H. unfold rstrip. rewrite rev_app_distr, lstrip_app_space; [reflexivity|].
  rewrite forallb_forall in *. intros x Hx. apply H. now apply in_rev.
Qed.

Lemma strip_outer_space (a x b : str) :
  forallb isspace a = true -> forallb isspace b = true ->
  strip (a ++ x ++ b) = strip x.
Proof.
  intros Ha Hb. unfold strip. rewrite lstrip_app_space by exact Ha.
  rewrite lstrip_app. destruct (forallb isspace x) eqn:Hx.
  - rewrite (lstrip_all_space _ Hb), (lstrip_all_space _ Hx). reflexivity.
  - now apply rstrip_app_space.
Qed.

Lemma strip_all_space (x : str) : forallb isspace x = true -> strip x = [].
Proof. intros H. unfold strip. now rewrite lstrip_all_space. Qed.

End TrimFacts.

(** X1. Whitespace around the reply does not matter to the sanitizer. *)
Theorem sanitizer_ignores_outer_whitespace (a x b : str) :
  forallb isspace a = true -> forallb isspace b = true ->
  strip_markdown_fences (a ++ x ++ b) = strip_markdown_fences x.
Proof.
  intros Ha Hb. rewrite !strip_markdown_fences_eq.
  now rewrite strip_outer_space.
Qed.

(** X2. A reply of nothing but whitespace, the empty reply among them,
    is sanitized to the empty text. *)
Theorem sanitizer_blank_reply (x : str) :
  forallb isspace x = true -> strip_markdown_fences x = [].
Proof.
  intros H. rewrite strip_markdown_fences_eq, strip_all_space by exact H.
  reflexivity.
Qed.

Lemma sanitizer_ignores_outer_whitespace_witness :
  strip_markdown_fences ([NL; 32%N] ++ wrap (u "tex") (u "\documentclass{article}") ++ [NL])
  = strip_markdown_fences (wrap (u "tex") (u "\documentclass{article}")).
Proof. apply sanitizer_ignores_outer_whitespace; reflexivity. Defined.

Lemma sanitizer_blank_reply_witness :
  strip_markdown_fences [32%N; NL; 9%N] = [].
Proof. apply sanitizer_blank_reply. reflexivity. Defined.

Section MarkerFacts.

Lemma occurs_nil_inv (n : str) : occurs n [] -> n = [].
Proof.
  intros (pre & post & E). symmetry in E.
  apply app_eq_nil in E. destruct E as [_ E].
  now apply app_eq_nil in E.
Qed.

Lemma solid_app (a b : str) : solid (a ++ b) = (solid a && solid b)%bool.
Proof. apply forallb_app. Qed.

(** Text without whitespace cannot lie across a whitespace character. *)
Lemma occurs_across_space (n l r : str) (c : char) :
  solid n = true -> isspace c = true ->
  occurs n (l ++ c :: r) -> occurs n l \/ occurs n r.
Proof.
  intros Hn Hc (pre & post & E). symmetry in E.
  apply app_eq_app in E. destruct E as (k & [[E1 E2]|[E1 E2]]).
  - (* the occurrence begins after [l] *)
    destruct k as [|c' k]; cbn [app] in E2.
    + destruct n as [|c' n]; [left; exists l, []; now rewrite app_nil_r|].
      cbn [app] in E2. injection E2 as <- _. cbn in Hn. now rewrite Hc in Hn.
    + injection E2 as _ ->. right. now exists k, post.
  - symmetry in E2. apply app_eq_app in E2.
    destruct E2 as (k2 & [[E3 E4]|[E3 E4]]).
    + (* [n] ends inside [l] *)
      left. subst l k. now exists pre, k2.
    + destruct k2 as [|c' k2]; cbn [app] in E4.
      * left. subst l. rewrite app_nil_r in E3. subst k.
        exists pre, []. now rewrite app_nil_r.
      * injection E4 as <- _. subst n.
        rewrite solid_app in Hn. cbn in Hn. rewrite Hc in Hn.
        rewrite andb_false_r in Hn. discriminate.
Qed.

Lemma occurs_after_space (n a s : str) :
  n <> [] -> solid n = true -> forallb isspace a = true ->
  occurs n (a ++ s) -> occurs n s.
Proof.
  intros Hne Hn Ha. induction a as [|c a IH]; [trivial|].
  cbn [forallb] in Ha. apply andb_true_iff in Ha. destruct Ha as [Hc Ha].
  intros H. change ((c :: a) ++ s) with ([] ++ c :: (a ++ s)) in H.
  apply occurs_across_space in H; try assumption.
  destruct H as [H|H]; [now apply occurs_nil_inv in H|now apply IH].
Qed.

Lemma occurs_before_space (n s b : str) :
  n <> [] -> solid n = true -> forallb isspace b = true ->
  occurs n (s ++ b) -> occurs n s.
Proof.
  intros Hne Hn. induction b as [|c b IH] using rev_ind.
  - now rewrite app_nil_r.
  - rewrite forallb_app. cbn [forallb]. rewrite andb_true_r.
    intros Hb. apply andb_true_iff in Hb. destruct Hb as [Hb Hc].
    rewrite app_assoc. intros H.
    apply occurs_across_space in H; try assumption.
    destruct H as [H|H]; [now apply IH|now apply occurs_nil_inv in H].
Qed.

Variable n : str.
Hypothesis n_solid : solid n = true.
Hypothesis n_not_nil : n <> [].
Hypothesis n_not_in_fence :
  forall tag, In tag TAGS -> contains n (FENCE ++ tag) = false.

Lemma not_in_fence : ~ occurs n FENCE.
Proof.
  intros H. apply contains_occurs in H.
  rewrite <- (app_nil_r FENCE), n_not_in_fence in H; [discriminate|now left].
Qed.

Lemma occurs_drop_open (t : str) : occurs n t -> occurs n (drop_open t).
Proof.
  unfold drop_open. destruct (open_rest t) as [r|] eqn:E; [|trivial].
  apply open_rest_Some in E.
  destruct E as (l & (tag & w & Htag & Hw & ->) & ->).
  intros H.
  replace ((FENCE ++ tag ++ w ++ [NL]) ++ r)
    with (((FENCE ++ tag) ++ w) ++ NL :: r) in H
    by (rewrite <- !app_assoc; reflexivity).
  apply occurs_across_space in H; [|assumption|reflexivity].
  destruct H as [H|H]; [|exact H]. exfalso.
  apply occurs_before_space in H; try assumption.
  apply contains_occurs in H. rewrite n_not_in_fence in H by exact Htag.
  discriminate.
Qed.

Lemma occurs_drop_close (t : str) : occurs n t -> occurs n (drop_close t).
Proof.
  unfold drop_close. destruct (find_close t) as [sk|] eqn:E; [|trivial].
  apply find_close_Some in E. destruct E as (W & -> & HW).
  intros H. apply occurs_across_space in H; [|assumption|reflexivity].
  destruct H as [H|H]; [exact H|]. exfalso.
  apply occurs_before_space in H; try assumption.
  now apply not_in_fence.
Qed.

Lemma occurs_sanitized (x : str) :
  occurs n (strip_markdown_fences x) <-> occurs n x.
Proof.
  split.
  - intros H. destruct (smf_decomp x) as (pre & post & E). rewrite E.
    now apply occurs_app_r, occurs_app_l.
  - intros H. rewrite strip_markdown_fences_eq.
    apply occurs_drop_close, occurs_drop_open.
    destruct (strip_split x) as (a & b & E & Ha & Hb). rewrite E in H.
    apply occurs_after_space in H; try assumption.
    now apply occurs_before_space in H.
Qed.

Lemma contains_sanitized (x : str) :
  contains n (strip_markdown_fences x) = contains n x.
Proof.
  pose proof (occurs_sanitized x) as H. rewrite <- !contains_occurs in H.
  destruct (contains n (strip_markdown_fences x)), (contains n x);
    intuition congruence.
Qed.

End MarkerFacts.

Lemma has_markers_sanitized (x : str) :
  has_markers (strip_markdown_fences x) = has_markers x.
Proof.
  unfold has_markers.
  rewrite !contains_sanitized; try reflexivity; try discriminate.
  - intros tag [<-|[<-|[<-|[]]]]; reflexivity.
  - intros tag [<-|[<-|[<-|[]]]]; reflexivity.
Qed.

(** X3. Sanitizing the reply never changes what the validator says of
    it: neither whitespace nor a fence can hold or cut a document
    marker. *)
Theorem sanitizer_keeps_the_verdict (x : str) (t : list event) :
  validate_latex (strip_markdown_fences x) t = validate_latex x t.
Proof.
  rewrite !validate_latex_run.
  now rewrite has_markers_sanitized.
Qed.

Section LoneFenceFacts.

Lemma after_ws_nl_head (s r : str) :
  after_ws_nl s = Some r -> head_space s = true.
Proof.
  destruct s as [|c s]; cbn [after_ws_nl head_space]; [discriminate|].
  now destruct (isspace c).
Qed.

(** Two texts without whitespace that are each followed by a whitespace
    character at the start of the same text are the same. *)
Lemma solid_prefix_unique (p1 : str) :
  forall p2 r1 r2,
    solid p1 = true -> solid p2 = true ->
    head_space r1 = true -> head_space r2 = true ->
    p1 ++ r1 = p2 ++ r2 -> p1 = p2.
Proof.
  induction p1 as [|c p1 IH]; intros p2 r1 r2 H1 H2 Hr1 Hr2 E.
  - destruct p2 as [|d p2]; [reflexivity|]. exfalso.
    cbn [app] in E. subst r1. cbn in Hr1, H2. now rewrite Hr1 in H2.
  - destruct p2 as [|d p2].
    + exfalso. cbn [app] in E. subst r2. cbn in Hr2, H1. now rewrite Hr2 in H1.
    + cbn [app] in E. injection E as <- E.
      cbn in H1, H2. apply andb_true_iff in H1, H2.
      f_equal. now apply (IH p2 r1 r2).
Qed.

Lemma after_tag_other (known tag rest : str) :
  solid known = true -> solid tag = true -> tag <> known ->
  after_tag known (tag ++ NL :: rest) = None.
Proof.
  intros Hk Ht Hne. unfold after_tag.
  destruct (strip_prefix known (tag ++ NL :: rest)) as [r|] eqn:E; [|reflexivity].
  destruct (after_ws_nl r) as [x|] eqn:Er; [|reflexivity]. exfalso.
  apply strip_prefix_Some in E. apply after_ws_nl_head in Er.
  apply Hne. now apply (@solid_prefix_unique tag known (NL :: rest) r).
Qed.

Lemma open_rest_other (tag rest : str) :
  tag <> [] -> solid tag = true -> ~ In tag TAGS ->
  open_rest (FENCE ++ tag ++ NL :: rest) = None.
Proof.
  intros Hne Ht Hin. unfold open_rest. rewrite strip_prefix_app.
  rewrite !after_tag_other; try assumption; try reflexivity.
  - destruct tag as [|c tag]; [congruence|]. cbn [app after_ws_nl].
    cbn in Ht. apply andb_true_iff in Ht. destruct Ht as [Hc _].
    apply negb_true_iff in Hc. now rewrite Hc.
  - intros ->. apply Hin. right. right. now left.
  - intros ->. apply Hin. right. now left.
Qed.

Lemma strip_fenced (s : str) :
  tail_space s = false -> strip (BACKTICK :: s) = BACKTICK :: s.
Proof.
  intros H. apply strip_id; [reflexivity|].
  destruct s as [|c s]; [reflexivity|].
  change (BACKTICK :: c :: s) with ([BACKTICK] ++ c :: s).
  rewrite tail_space_app; [exact H|discriminate].
Qed.

Lemma tail_space_fence (s : str) : tail_space (s ++ NL :: FENCE) = false.
Proof. rewrite tail_space_app; [reflexivity|discriminate]. Qed.

End LoneFenceFacts.

(** X4. A fence with any other language tag is not taken for an opening
    fence: the sanitizer removes the closing fence and leaves the
    opening line in place. *)
Theorem sanitizer_keeps_other_tags (tag body : str) :
  tag <> [] -> solid tag = true -> ~ In tag TAGS ->
  strip_markdown_fences (wrap tag body) = FENCE ++ tag ++ NL :: body.
Proof.
  intros Hne Ht Hin. rewrite strip_markdown_fences_eq. unfold wrap.
  change (FENCE ++ tag ++ NL :: body ++ NL :: FENCE)
    with (BACKTICK :: [BACKTICK; BACKTICK] ++ tag ++ NL :: body ++ NL :: FENCE).
  rewrite strip_fenced.
  - change (BACKTICK :: [BACKTICK; BACKTICK] ++ tag ++ NL :: body ++ NL :: FENCE)
      with (FENCE ++ tag ++ NL :: body ++ NL :: FENCE).
    unfold drop_open. rewrite open_rest_other by assumption.
    replace (FENCE ++ tag ++ NL :: body ++ NL :: FENCE)
      with ((FENCE ++ tag ++ NL :: body) ++ NL :: FENCE)
      by (rewrite <- ?app_assoc; cbn [app]; now rewrite <- ?app_assoc).
    unfold drop_close. now rewrite find_close_end.
  - replace ([BACKTICK; BACKTICK] ++ tag ++ NL :: body ++ NL :: FENCE)
      with (([BACKTICK; BACKTICK] ++ tag ++ NL :: body) ++ NL :: FENCE)
      by (rewrite <- ?app_assoc; cbn [app]; now rewrite <- ?app_assoc).
    apply tail_space_fence.
Qed.

Lemma sanitizer_keeps_other_tags_witness :
  strip_markdown_fences (wrap (u "python") (u "print(1)"))
  = FENCE ++ u "python" ++ NL :: u "print(1)".
Proof.
  apply sanitizer_keeps_other_tags; [discriminate|reflexivity|].
  intros [H|[H|[H|[]]]]; discriminate H.
Defined.

(** X5. A reply cut off before its closing fence still loses its
    opening fence line. *)
Theorem sanitizer_strips_lone_opening_fence (tag body : str) :
  In tag TAGS -> starts_on_first_line body ->
  tail_space body = false -> ~ ends_with_fence body ->
  strip_markdown_fences (FENCE ++ tag ++ NL :: body) = body.
Proof.
  intros Htag Hbody Htail Hend.
  pose proof Hbody as (w & d & rest & Ebody & Hw & Hd).
  assert (Hne : body <> []) by (rewrite Ebody; now destruct w).
  rewrite strip_markdown_fences_eq.
  change (FENCE ++ tag ++ NL :: body)
    with (BACKTICK :: [BACKTICK; BACKTICK] ++ tag ++ NL :: body).
  rewrite strip_fenced.
  - change (BACKTICK :: [BACKTICK; BACKTICK] ++ tag ++ NL :: body)
      with (FENCE ++ tag ++ NL :: body).
    assert (Hline : after_ws_nl (NL :: body) = Some body).
    { cbn [after_ws_nl]. rewrite isspace_NL, N.eqb_refl, Ebody.
      now rewrite after_ws_nl_first_line. }
    assert (Hopen : open_rest (FENCE ++ tag ++ NL :: body) = Some body).
    { unfold open_rest. rewrite strip_prefix_app.
      destruct Htag as [<-|[<-|[<-|[]]]].
      - cbn [app]. now rewrite after_tag_latex_NL, after_tag_tex_NL.
      - now rewrite after_tag_app, Hline.
      - now rewrite after_tag_latex_tex, after_tag_app, Hline. }
    unfold drop_open. rewrite Hopen. unfold drop_close.
    destruct (find_close body) as [sk|] eqn:E; [|reflexivity].
    exfalso. apply Hend. apply find_close_Some in E.
    destruct E as (W & E & HW). exists sk.
    assert (W = []) as ->.
    { apply trailing_space_nil with (a := sk ++ NL :: FENCE); [|exact HW].
      rewrite <- app_assoc. cbn [app]. now rewrite <- E. }
    now rewrite app_nil_r in E.
  - replace ([BACKTICK; BACKTICK] ++ tag ++ NL :: body)
      with (([BACKTICK; BACKTICK] ++ tag ++ [NL]) ++ body)
      by (rewrite <- ?app_assoc; cbn [app]; now rewrite <- ?app_assoc).
    now rewrite tail_space_app.
Qed.

Lemma sanitizer_strips_lone_opening_fence_witness :
  strip_markdown_fences (FENCE ++ u "latex" ++ NL :: u "\documentclass{article}")
  = u "\documentclass{article}".
Proof.
  apply (@sanitizer_strips_lone_opening_fence
           (u "latex") (u "\documentclass{article}")).
  - right. left. reflexivity.
  - exists [], 92%N, (u "documentclass{article}"). repeat split.
  - reflexivity.
  - intros (b & E). apply (f_equal (@rev char)) in E.
    rewrite rev_app_distr in E. discriminate E.
Defined.

(** X6. A closing fence at the end of the reply is removed whether or
    not an opening fence came before it. *)
Theorem sanitizer_strips_lone_closing_fence (c : char) (text : str) :
  isspace c = false -> c <> BACKTICK ->
  strip_markdown_fences ((c :: text) ++ NL :: FENCE) = c :: text.
Proof.
  intros Hc Hb. rewrite strip_markdown_fences_eq, strip_id.
  - assert (Hopen : open_rest ((c :: text) ++ NL :: FENCE) = None).
    { unfold open_rest. cbn [app FENCE strip_prefix].
      destruct (N.eqb_spec BACKTICK c) as [E|_]; [now elim Hb|reflexivity]. }
    unfold drop_open. rewrite Hopen. unfold drop_close.
    now rewrite find_close_end.
  - cbn [app head_space]. exact Hc.
  - apply tail_space_fence.
Qed.

Lemma sanitizer_strips_lone_closing_fence_witness :
  strip_markdown_fences ((92%N :: u "end{document}") ++ NL :: FENCE)
  = 92%N :: u "end{document}".
Proof.
  apply sanitizer_strips_lone_closing_fence; [reflexivity|discriminate].
Defined.

(** ** Paths *)

Section PathFacts.

Lemma replace_from_absent (old new s : str) :
  contains old s = false -> replace_from old new 0 s = s.
Proof.
  induction s as [|c s IH]; [reflexivity|].
  rewrite contains_cons. intros H. apply orb_false_iff in H.
  destruct H as [Hhere Hlater]. cbn [replace_from].
  now rewrite Hhere, IH.
Qed.

Lemma contains_nil (s : str) : contains [] s = true.
Proof. now destruct s. Qed.

Lemma replace_absent (s old new : str) :
  contains old s = false -> replace s old new = s.
Proof.
  destruct old as [|c old]; [now rewrite contains_nil|].
  apply replace_from_absent.
Qed.

(** [sep] is no character of the text. *)
Lemma contains_char (c : char) (s : str) :
  contains [c] s = existsb (N.eqb c) s.
Proof.
  induction s as [|d s IH]; [reflexivity|].
  rewrite contains_cons, IH. cbn [existsb]. f_equal.
  unfold startswith. cbn [strip_prefix]. now destruct (N.eqb c d).
Qed.

Lemma after_last_sep_none (s acc : str) :
  existsb (N.eqb SEP) s = false -> after_last_sep s acc = acc.
Proof.
  revert acc; induction s as [|c s IH]; intros acc; [reflexivity|].
  cbn [existsb after_last_sep]. intros H. apply orb_false_iff in H.
  destruct H as [Hc Hs]. rewrite N.eqb_sym, Hc. now apply IH.
Qed.

Lemma after_last_sep_app (a s acc : str) :
  after_last_sep (a ++ SEP :: s) acc = after_last_sep s s.
Proof.
  revert acc; induction a as [|c a IH]; intros acc.
  - cbn [app after_last_sep]. now rewrite N.eqb_refl.
  - cbn [app after_last_sep]. apply IH.
Qed.

Lemma basename_after_sep (a name : str) :
  existsb (N.eqb SEP) name = false ->
  os_path_basename (a ++ SEP :: name) = name.
Proof.
  intros H. unfold os_path_basename.
  now rewrite after_last_sep_app, after_last_sep_none.
Qed.

Lemma endswith_sep (a : str) :
  endswith a [SEP] = true -> exists a', a = a' ++ [SEP].
Proof.
  unfold endswith. intros H. apply startswith_true in H.
  destruct H as (r & E). exists (rev r).
  apply (f_equal (@rev char)) in E. rewrite rev_involutive in E.
  rewrite E. reflexivity.
Qed.

Lemma startswith_sep_false (name : str) :
  existsb (N.eqb SEP) name = false -> startswith name [SEP] = false.
Proof.
  destruct name as [|c name]; [reflexivity|]. cbn [existsb].
  intros H. apply orb_false_iff in H. destruct H as [Hc _].
  unfold startswith. cbn [strip_prefix]. now rewrite Hc.
Qed.

(** Joining a name without separator to a folder and taking the base
    name gives the name back, unless the folder is empty and so is
    not a folder at all. *)
Lemma basename_join (d name : str) :
  d <> [] -> existsb (N.eqb SEP) name = false ->
  os_path_basename (os_path_join d [name]) = name.
Proof.
  intros Hd Hname. cbn [os_path_join].
  rewrite startswith_sep_false by exact Hname.
  destruct d as [|c d]; [congruence|]. cbn [length Nat.eqb orb].
  destruct (endswith (c :: d) [SEP]) eqn:E.
  - apply endswith_sep in E. destruct E as (a' & ->).
    rewrite <- app_assoc. cbn [app]. now apply basename_after_sep.
  - now apply basename_after_sep.
Qed.

Lemma os_path_join_not_nil (a b : str) :
  a <> [] \/ b <> [] -> os_path_join a [b] <> [].
Proof.
  intros H. cbn [os_path_join]. destruct (startswith b [SEP]) eqn:Hb.
  - apply startswith_true in Hb. destruct Hb as (r & ->). discriminate.
  - destruct (_ || _)%bool; intros E; apply app_eq_nil in E;
      destruct E as [Ea Eb]; [tauto|discriminate Eb].
Qed.

Lemma company_dir_not_nil (w : world) (offer : str) : company_dir_of w offer <> [].
Proof.
  change (company_dir_of w offer)
    with (os_path_join (os_path_join (REPO_ROOT w) [u "offers"]) [offer]).
  apply os_path_join_not_nil. left.
  apply os_path_join_not_nil. right. discriminate.
Qed.

Lemma output_tex_basename (w : world) (offer : str) :
  contains [SEP] offer = false ->
  os_path_basename (output_tex_of w offer) = u "resume-" ++ offer ++ u ".tex".
Proof.
  intros H. rewrite contains_char in H. unfold output_tex_of.
  apply basename_join; [apply company_dir_not_nil|].
  rewrite !existsb_app. apply orb_false_iff. split; [reflexivity|].
  apply orb_false_iff. split; [exact H|reflexivity].
Qed.

End PathFacts.

(** X7. For a job identifier without a slash the compiler is given
    the file named [resume-<id>.tex], the name under which the tailored
    document was written into the job folder. *)
Theorem compiled_file_name (w : world) (offer : str) :
  contains [SEP] offer = false ->
  os_path_basename (output_tex_of w offer) = u "resume-" ++ offer ++ u ".tex".
Proof. apply output_tex_basename. Qed.

Lemma compiled_file_name_witness :
  os_path_basename (output_tex_of WORLD_OK ACME) = u "resume-" ++ ACME ++ u ".tex".
Proof. apply compiled_file_name. reflexivity. Defined.



(** X9. Where [.tex] occurs in the tailored document's path only as
    its extension, the artifact is announced next to the document under
    the same base name with [.pdf], and the log is expected there with
    [.log]. *)
Theorem artifact_and_log_beside_the_document (w : world) (offer : str) :
  contains [SEP] offer = false ->
  contains (u ".tex")
           (os_path_join (company_dir_of w offer) [u "resume-" ++ offer] ++ u ".te")
  = false ->
  pdf_path_of (output_tex_of w offer)
  = os_path_join (company_dir_of w offer) [u "resume-" ++ offer] ++ u ".pdf"
  /\ log_path_of (os_path_basename (output_tex_of w offer)) (company_dir_of w offer)
     = os_path_join (company_dir_of w offer) [u "resume-" ++ offer ++ u ".log"].
Proof.
  intros Hsep Hno. split.
  - rewrite output_tex_stem. now apply pdf_path_of_stem.
  - rewrite output_tex_basename by exact Hsep.
    rewrite app_assoc. apply log_path_of_stem.
    (* [.tex] does not occur in the name, a part of the path *)
    destruct (contains (u ".tex") ((u "resume-" ++ offer) ++ u ".te")) eqn:E;
      [|reflexivity].
    exfalso. apply contains_occurs in E.
    assert (Hin : occurs (u ".tex")
                    (os_path_join (company_dir_of w offer) [u "resume-" ++ offer]
                     ++ u ".te")).
    { cbn [os_path_join].
      change (startswith (u "resume-" ++ offer) [SEP]) with false. cbv iota.
      destruct (_ || _)%bool; rewrite <- ?app_assoc.
      - now apply occurs_app_r.
      - apply occurs_app_r. change (SEP :: ?x) with ([SEP] ++ x).
        rewrite <- ?app_assoc. now apply occurs_app_r. }
    apply contains_occurs in Hin. congruence.
Qed.

Lemma artifact_and_log_beside_the_document_witness :
  pdf_path_of (output_tex_of WORLD_OK ACME) = u "/repo/offers/acme/resume-acme.pdf"
  /\ log_path_of (os_path_basename (output_tex_of WORLD_OK ACME))
                 (company_dir_of WORLD_OK ACME)
     = u "/repo/offers/acme/resume-acme.log".
Proof.
  exact (@artifact_and_log_beside_the_document WORLD_OK ACME eq_refl eq_refl).
Defined.

(** X21. Captured output of at most [TAIL] characters is surfaced
    whole; of longer output exactly the last [TAIL] characters are
    surfaced. *)
Theorem surfaced_output_length (out : str) :
  surfaced out = skipn (length out - TAIL) out
  /\ length (surfaced out) = Nat.min (length out) TAIL
  /\ (length out <= TAIL -> surfaced out = out).
Proof.
  assert (H : surfaced out = skipn (length out - TAIL) out).
  { unfold surfaced, last_chars. now destruct out. }
  rewrite H. repeat split.
  - rewrite length_skipn. lia.
  - intros Hlen. replace (length out - TAIL) with 0 by lia. reflexivity.
Qed.

(** X22. For a file whose name has no [.tex] in it the invoker expects
    the log at the path of the file itself. *)
Theorem log_path_without_extension (tex_path company_dir : str) :
  contains (u ".tex") (os_path_basename tex_path) = false ->
  log_path_of (os_path_basename tex_path) company_dir
  = os_path_join company_dir [os_path_basename tex_path].
Proof.
  intros H. unfold log_path_of. now rewrite replace_absent.
Qed.

Lemma log_path_without_extension_witness :
  log_path_of (os_path_basename (u "/repo/offers/acme/resume")) ACME_DIR
  = u "/repo/offers/acme/resume".
Proof. apply log_path_without_extension. reflexivity. Defined.

(** ** The locator *)

(** ** Patterns and the folder [glob] lists *)

Section PatternFacts.

Lemma fixed_prefix_exact (l s : str) :
  fixed_prefix (map Exactly l) s = strip_prefix l s.
Proof.
  revert s; induction l as [|x l IH]; intros s; [reflexivity|].
  destruct s as [|y s]; [reflexivity|].
  cbn [map fixed_prefix strip_prefix accepts]. now rewrite IH.
Qed.

Lemma endswith_true (s l : str) :
  endswith s l = true <-> exists pre, s = pre ++ l.
Proof.
  unfold endswith. rewrite startswith_true. split.
  - intros (r & E). exists (rev r).
    apply (f_equal (@rev char)) in E.
    now rewrite rev_involutive, rev_app_distr, rev_involutive in E.
  - intros (pre & ->). exists (rev pre). now rewrite rev_app_distr.
Qed.

Lemma fixed_at_end_exact (l s : str) :
  fixed_at_end (map Exactly l) s = endswith s l.
Proof.
  apply eq_true_iff_eq. rewrite endswith_true.
  unfold fixed_at_end. rewrite length_map, fixed_prefix_exact. split.
  - intros H. apply andb_true_iff in H. destruct H as [Hlen H].
    apply Nat.leb_le in Hlen.
    destruct (strip_prefix l (skipn (length s - length l) s))
      as [[|c r]|] eqn:E; try discriminate.
    apply strip_prefix_Some in E. rewrite app_nil_r in E.
    exists (firstn (length s - length l) s).
    pose proof (firstn_skipn (length s - length l) s) as F.
    rewrite E in F. now symmetry.
  - intros (pre & ->). rewrite length_app.
    replace (length pre + length l - length l) with (length pre) by lia.
    assert (Hl : strip_prefix l l = Some []).
    { pose proof (strip_prefix_app l []) as H. now rewrite app_nil_r in H. }
    rewrite skipn_app, skipn_all, Nat.sub_diag. cbn [app skipn].
    rewrite Hl, andb_true_r. apply Nat.leb_le. lia.
Qed.

(** For the pattern [*.txt], [fnmatch] asks for the ending [.txt]. *)
Lemma fnmatchcase_txt (name : str) :
  fnmatchcase name (u "*.txt") = fnmatch_txt name.
Proof.
  unfold fnmatchcase, fnmatch_txt.
  change (segments (translate (u "*.txt")) [])
    with [[]; map Exactly (u ".txt")].
  cbn [fixed_prefix after_star]. apply fixed_at_end_exact.
Qed.

Lemma has_magic_app (a b : str) :
  has_magic (a ++ b) = has_magic a || has_magic b.
Proof. apply existsb_app. Qed.

End PatternFacts.

Section SplitFacts.

(** What follows the last separator, and what comes before it. *)
Lemma after_last_sep_spec (s acc : str) :
  (existsb (N.eqb SEP) s = false /\ after_last_sep s acc = acc)
  \/ exists pre, s = pre ++ SEP :: after_last_sep s acc.
Proof.
  revert acc; induction s as [|c s IH]; intros acc; [now left|].
  cbn [existsb after_last_sep]. rewrite (N.eqb_sym SEP c).
  destruct (N.eqb_spec c SEP) as [->|Hc].
  - right. destruct (IH s) as [[_ E]|(pre & E)].
    + exists []. now rewrite E.
    + exists (SEP :: pre). cbn [app]. now rewrite <- E.
  - destruct (IH acc) as [[Hs E]|(pre & E)].
    + left. now split.
    + right. exists (c :: pre). cbn [app]. now rewrite <- E.
Qed.

(** A path is what comes before its base name, which is empty or ends
    in a separator, followed by the base name. *)
Lemma basename_suffix (p : str) :
  exists pre,
    p = pre ++ os_path_basename p
    /\ (pre = [] \/ exists a, pre = a ++ [SEP]).
Proof.
  unfold os_path_basename.
  destruct (after_last_sep_spec p p) as [[_ E]|(pre & E)].
  - exists []. rewrite E. now split; [|left].
  - exists (pre ++ [SEP]). rewrite <- app_assoc. split; [exact E|].
    right. now exists pre.
Qed.

Lemma dirname_split (pre base : str) :
  os_path_basename (pre ++ base) = base ->
  os_path_dirname (pre ++ base)
  = if forallb (N.eqb SEP) pre then pre else rev (lstrip_sep (rev pre)).
Proof.
  intros E. unfold os_path_dirname. rewrite E, length_app.
  replace (length pre + length base - length base) with (length pre) by lia.
  rewrite firstn_app, firstn_all, Nat.sub_diag. cbn [firstn].
  now rewrite app_nil_r.
Qed.

Lemma lstrip_sep_suffix (s : str) : exists seps, s = seps ++ lstrip_sep s.
Proof.
  induction s as [|c s IH]; [now exists []|]. cbn [lstrip_sep].
  destruct (N.eqb c SEP); [|now exists []].
  destruct IH as (seps & E). exists (c :: seps). cbn [app]. now rewrite <- E.
Qed.

Lemma rstrip_sep_prefix (h : str) :
  exists seps, h = rev (lstrip_sep (rev h)) ++ seps.
Proof.
  destruct (lstrip_sep_suffix (rev h)) as (seps & E).
  exists (rev seps). rewrite <- rev_app_distr, <- E. now rewrite rev_involutive.
Qed.

(** The directory part is a prefix of what comes before the base
    name. *)
Lemma dirname_prefix (pre base : str) :
  os_path_basename (pre ++ base) = base ->
  exists seps, pre = os_path_dirname (pre ++ base) ++ seps.
Proof.
  intros E. rewrite (@dirname_split pre base E).
  destruct (forallb (N.eqb SEP) pre).
  - exists []. now rewrite app_nil_r.
  - apply rstrip_sep_prefix.
Qed.

Lemma forallb_sep_no_magic (s : str) :
  forallb (N.eqb SEP) s = true -> has_magic s = false.
Proof.
  induction s as [|c s IH]; [reflexivity|]. cbn [forallb]. intros H.
  apply andb_true_iff in H. destruct H as [Hc Hs].
  apply N.eqb_eq in Hc. subst c. cbn [has_magic existsb].
  change (existsb _ s) with (has_magic s). now rewrite IH.
Qed.

(** A directory part that holds a pattern character is shorter than
    the path. *)
Lemma dirname_shorter (p : str) :
  has_magic (os_path_dirname p) = true ->
  length (os_path_dirname p) < length p.
Proof.
  destruct (basename_suffix p) as (pre & E & Hpre).
  remember (os_path_basename p) as b eqn:Hb.
  assert (Eb : os_path_basename (pre ++ b) = b) by (rewrite <- E; now symmetry).
  clear Hb. subst p. rewrite (@dirname_split _ _ Eb).
  destruct (forallb (N.eqb SEP) pre) eqn:Hall.
  - now rewrite (@forallb_sep_no_magic _ Hall).
  - intros _. rewrite length_app.
    destruct Hpre as [->|(a & ->)]; [discriminate Hall|].
    rewrite rev_app_distr. cbn [rev app lstrip_sep]. rewrite N.eqb_refl.
    destruct (lstrip_sep_suffix (rev a)) as (seps & Es).
    apply (f_equal (@length char)) in Es.
    rewrite length_app, length_rev in Es.
    rewrite length_rev, length_app. cbn [length]. lia.
Qed.

End SplitFacts.

(** ** The pattern of a job folder *)

Section GlobFacts.

Variable w : world.

Lemma os_path_join_nil (name : str) : os_path_join [] [name] = name.
Proof. cbn [os_path_join]. now destruct (startswith name [SEP]). Qed.

(** In one directory, [glob] gives for [*.txt] the entries that end in
    [.txt] and do not begin with a dot. *)
Lemma glob1_txt (dirname : str) :
  glob1 w dirname (u "*.txt") false
  = filter visible_txt (listdir w (scandir_arg dirname)).
Proof.
  unfold glob1, glob_listdir, fnmatch_filter.
  change (ishidden (u "*.txt")) with false. cbn [negb orb].
  induction (listdir w (scandir_arg dirname)) as [|n l IH]; [reflexivity|].
  cbn [filter]. unfold visible_txt at 1.
  destruct (ishidden n); cbn [negb andb filter]; [exact IH|].
  rewrite fnmatchcase_txt. now rewrite IH.
Qed.

(** The pattern is the folder, a separator unless the folder ends in
    one, and [*.txt]. *)
Lemma posting_pattern_split (d : str) :
  exists pre,
    posting_pattern d = pre ++ u "*.txt"
    /\ os_path_basename (pre ++ u "*.txt") = u "*.txt"
    /\ has_magic pre = has_magic d.
Proof.
  unfold posting_pattern. cbn [os_path_join].
  change (startswith (u "*.txt") [SEP]) with false. cbn iota.
  destruct d as [|c d].
  - exists []. now repeat split.
  - cbn [length Nat.eqb orb]. destruct (endswith (c :: d) [SEP]) eqn:E.
    + exists (c :: d). split; [reflexivity|]. split; [|reflexivity].
      apply endswith_sep in E. destruct E as (a & ->).
      rewrite <- app_assoc. now apply basename_after_sep.
    + exists ((c :: d) ++ [SEP]). rewrite <- app_assoc. split; [reflexivity|].
      split; [now apply basename_after_sep|].
      rewrite has_magic_app. apply orb_false_r.
Qed.

Lemma posting_pattern_no_magic_dir (d : str) :
  has_magic d = false ->
  has_magic (os_path_dirname (posting_pattern d)) = false.
Proof.
  intros Hd. destruct (posting_pattern_split d) as (pre & E & Eb & Hm).
  rewrite E. destruct (@dirname_prefix pre (u "*.txt") Eb) as (seps & Ep).
  rewrite Hd in Hm. rewrite Ep, has_magic_app in Hm.
  now apply orb_false_iff in Hm.
Qed.

(** For a folder whose path holds no pattern character, [glob] gives
    the visible [.txt] entries of that folder, in the order it lists
    them, each joined to the folder. *)
Lemma glob_txt_plain (d : str) :
  has_magic d = false ->
  glob_txt w (posting_pattern d)
  = map (fun name => os_path_join (os_path_dirname (posting_pattern d)) [name])
        (filter visible_txt (listdir w (posting_folder d))).
Proof.
  intros Hd. pose proof (posting_pattern_no_magic_dir d Hd) as Hdir.
  unfold posting_folder.
  destruct (posting_pattern_split d) as (pre & E & Eb & _).
  assert (Hb : os_path_basename (posting_pattern d) = u "*.txt")
    by now rewrite E.
  assert (Hp : has_magic (posting_pattern d) = true).
  { rewrite E, has_magic_app. apply orb_true_r. }
  remember (posting_pattern d) as p eqn:Hpat. clear Hpat.
  unfold glob_txt. destruct p as [|c p]; [discriminate Hp|].
  cbn [iglob]. rewrite Hp, Hb. cbn [negb].
  destruct (os_path_dirname (c :: p)) as [|c' dn] eqn:Ed.
  - rewrite glob1_txt. symmetry. erewrite map_ext; [apply map_id|].
    intros name. apply os_path_join_nil.
  - rewrite Hdir, andb_false_r. cbn [flat_map].
    change (has_magic (u "*.txt")) with true. cbn iota.
    now rewrite glob1_txt, app_nil_r.
Qed.

(** [iglob] does not depend on its fuel once it is above the length of
    the pattern. *)
Lemma iglob_fuel (fuel1 fuel2 : nat) (pathname : str) (dironly : bool) :
  length pathname < fuel1 -> length pathname < fuel2 ->
  iglob w fuel1 pathname dironly = iglob w fuel2 pathname dironly.
Proof.
  revert fuel2 pathname dironly.
  induction fuel1 as [|f1 IH]; intros [|f2] p dironly H1 H2; try lia.
  cbn [iglob]. destruct (has_magic p); cbn [negb]; [|reflexivity].
  destruct (os_path_dirname p) as [|c dn] eqn:Ed; [reflexivity|].
  destruct (negb (str_eqb (c :: dn) p) && has_magic (c :: dn)) eqn:Hc;
    [|reflexivity].
  apply andb_true_iff in Hc. destruct Hc as [_ Hm].
  rewrite <- Ed in Hm. apply dirname_shorter in Hm. rewrite Ed in Hm.
  rewrite (IH f2 (c :: dn) true) by lia. reflexivity.
Qed.

End GlobFacts.

Section LocatorSelection.

Variable A : Type.
Variable f : A -> bool.

Lemma filter_first (l : list A) (x : A) (rest : list A) :
  filter f l = x :: rest ->
  exists before after,
    l = before ++ x :: after
    /\ forallb (fun a => negb (f a)) before = true
    /\ f x = true.
Proof.
  induction l as [|a l IH]; cbn [filter]; [discriminate|].
  destruct (f a) eqn:Ha.
  - intros E. injection E as -> _. now exists [], l.
  - intros E. destruct (IH E) as (before & after & -> & Hb & Hx).
    exists (a :: before), after. cbn [forallb app]. now rewrite Ha, Hb.
Qed.

Lemma filter_none (l : list A) :
  filter f l = [] <-> forallb (fun a => negb (f a)) l = true.
Proof.
  induction l as [|a l IH]; cbn [filter forallb]; [tauto|].
  destruct (f a); cbn [negb andb]; [split; discriminate|exact IH].
Qed.

End LocatorSelection.

(** X10. For a folder whose path holds none of the characters that
    [glob] reads as a pattern, the locator never raises.  What it
    returns is the first entry of the folder, in the order the system
    lists it, whose name ends in [.txt] and does not begin with a dot,
    joined to the folder; it exits, with status one, exactly when the
    folder lists no such entry. *)
Theorem find_job_posting_selects (w : world) (company_dir : str) (t : list event) :
  has_magic company_dir = false ->
  match fst (find_job_posting w company_dir t) with
  | Ret path =>
      exists before name after,
        listdir w (posting_folder company_dir) = before ++ name :: after
        /\ forallb (fun n => negb (visible_txt n)) before = true
        /\ visible_txt name = true
        /\ path = os_path_join (os_path_dirname (posting_pattern company_dir))
                               [name]
  | Exit code =>
      code = 1%Z
      /\ forallb (fun n => negb (visible_txt n))
                 (listdir w (posting_folder company_dir)) = true
  | Raise _ => False
  end.
Proof.
  intros Hplain. pose proof (glob_txt_plain w company_dir Hplain) as Hglob.
  destruct (filter visible_txt (listdir w (posting_folder company_dir)))
    as [|name rest] eqn:E.
  - rewrite find_job_posting_none by exact Hglob.
    cbn [fst]. split; [reflexivity|now apply filter_none].
  - cbn [map] in Hglob. erewrite find_job_posting_some by exact Hglob.
    cbn [fst]. apply filter_first in E.
    destruct E as (before & after & El & Hb & Hn).
    now exists before, name, after.
Qed.

Lemma find_job_posting_selects_witness :
  match fst (find_job_posting WORLD_TWO_POSTINGS ACME_DIR []) with
  | Ret path =>
      exists before name after,
        listdir WORLD_TWO_POSTINGS (posting_folder ACME_DIR)
        = before ++ name :: after
        /\ forallb (fun n => negb (visible_txt n)) before = true
        /\ visible_txt name = true
        /\ path = os_path_join (os_path_dirname (posting_pattern ACME_DIR))
                               [name]
  | Exit code =>
      code = 1%Z
      /\ forallb (fun n => negb (visible_txt n))
                 (listdir WORLD_TWO_POSTINGS (posting_folder ACME_DIR)) = true
  | Raise _ => False
  end.
Proof.
  exact (@find_job_posting_selects WORLD_TWO_POSTINGS ACME_DIR [] eq_refl).
Defined.

(** X23. When the path of the job folder holds no pattern character and
    the folder lists no entry that ends in [.txt] and does not begin
    with a dot, the run ends with a non-zero status, makes no model
    call and writes no file; when the earlier checks pass, it ends in
    the locator's not-found exit. *)
Theorem plain_folder_without_posting_stops (w : world) :
  (forall offer,
      nth_error (argv w) 1 = Some offer ->
      has_magic (company_dir_of w offer) = false
      /\ forallb (fun n => negb (visible_txt n))
                 (listdir w (posting_folder (company_dir_of w offer))) = true) ->
  exit_status (fst (main w [])) <> 0%Z
  /\ existsb is_invoke (snd (main w [])) = false
  /\ existsb is_write_file (snd (main w [])) = false
  /\ (forall prog offer resume,
         argv w = [prog; offer] ->
         os_path_isdir w (company_dir_of w offer) = true ->
         env_missing w API_KEY = false ->
         file_text w (RESUME_TEX w) = Some resume ->
         main w []
         = (Exit 1,
            [OpenRead (RESUME_TEX w);
             PrintErr (u "Error: No .txt file found in " ++ company_dir_of w offer);
             PrintErr (u "Place the job posting as a .txt file in the offer folder.")])).
Proof.
  intros Hnone.
  assert (Hglob : forall offer,
             nth_error (argv w) 1 = Some offer ->
             glob_txt w (posting_pattern (company_dir_of w offer)) = []).
  { intros offer H. destruct (Hnone offer H) as [Hplain Hno].
    rewrite glob_txt_plain by exact Hplain.
    apply filter_none in Hno. now rewrite Hno. }
  unfold main.
  destruct (argv w) as [|prog [|offer [|extra more]]] eqn:Hargv; run;
    try solve [stopped].
  specialize (Hglob offer eq_refl).
  destruct (os_path_isdir w (company_dir_of w offer)) eqn:Hdir; run;
    [|solve [stopped]].
  destruct (env_missing w API_KEY) eqn:Hkey; run; [solve [stopped]|].
  destruct (file_text w (RESUME_TEX w)) as [resume|] eqn:Hresume; run;
    [|solve [stopped]].
  rewrite find_job_posting_none by exact Hglob. cbn [fst snd app].
  repeat split; try (discriminate || reflexivity).
  intros prog' offer' resume' E. now inversion E; subst.
Qed.

Lemma plain_folder_without_posting_stops_witness :
  exit_status (fst (main WORLD_NO_POSTING [])) <> 0%Z
  /\ existsb is_invoke (snd (main WORLD_NO_POSTING [])) = false
  /\ existsb is_write_file (snd (main WORLD_NO_POSTING [])) = false.
Proof.
  assert (Hnone : forall offer,
             nth_error (argv WORLD_NO_POSTING) 1 = Some offer ->
             has_magic (company_dir_of WORLD_NO_POSTING offer) = false
             /\ forallb (fun n => negb (visible_txt n))
                        (listdir WORLD_NO_POSTING
                                 (posting_folder
                                    (company_dir_of WORLD_NO_POSTING offer)))
                = true).
  { intros offer E. injection E as <-. split; reflexivity. }
  destruct (@plain_folder_without_posting_stops WORLD_NO_POSTING Hnone)
    as (H1 & H2 & H3 & _).
  repeat split; assumption.
Defined.

(** X24. For a folder whose path holds no pattern character, what the
    locator prints depends on how many entries of the folder end in
    [.txt] and do not begin with a dot: its two not-found lines for
    none, nothing for one, and for more than one a single warning that
    names the first of them. *)
Theorem find_job_posting_warns_on_several
        (w : world) (company_dir : str) (t : list event) :
  has_magic company_dir = false ->
  snd (find_job_posting w company_dir t)
  = t ++ match filter visible_txt (listdir w (posting_folder company_dir)) with
         | [] =>
             [PrintErr (u "Error: No .txt file found in " ++ company_dir);
              PrintErr (u "Place the job posting as a .txt file in the offer folder.")]
         | [_] => []
         | name :: _ :: _ =>
             [PrintErr (u "Warning: Multiple .txt files found, using "
                        ++ os_path_join
                             (os_path_dirname (posting_pattern company_dir))
                             [name])]
         end.
Proof.
  intros Hplain. pose proof (glob_txt_plain w company_dir Hplain) as Hglob.
  destruct (filter visible_txt (listdir w (posting_folder company_dir)))
    as [|name [|second rest]]; cbn [map] in Hglob.
  - now rewrite find_job_posting_none by exact Hglob.
  - now erewrite find_job_posting_some by exact Hglob.
  - now erewrite find_job_posting_some by exact Hglob.
Qed.

Lemma find_job_posting_warns_on_several_witness :
  snd (find_job_posting WORLD_TWO_POSTINGS ACME_DIR [])
  = [PrintErr (u "Warning: Multiple .txt files found, using "
               ++ u "/repo/offers/acme/b.txt")].
Proof.
  exact (@find_job_posting_warns_on_several
           WORLD_TWO_POSTINGS ACME_DIR [] eq_refl).
Defined.

(** ** The compiler invoker *)

Section CompileOutcome.

Variable w : world.
Variables tex_path company_dir : str.

Local Abbreviation pass := (pass_event w tex_path company_dir).
Local Abbreviation command := (pass_command w tex_path company_dir).

Lemma compile_pdf_compiled (t : list event) :
  compiled w tex_path company_dir t (compile_pdf w tex_path company_dir t).
Proof.
  unfold compile_pdf. cbn [compile_passes]. run.
  change (pdflatex_command (os_path_relpath w company_dir (REPO_ROOT w))
                           (os_path_basename tex_path)) with command.
  change (Run command (REPO_ROOT w)) with pass.
  destruct (process w t command (REPO_ROOT w)) as [first|] eqn:E1.
  - destruct (Z.eqb_spec (returncode first) 0) as [H1|H1]; cbn [negb].
    + destruct (process w (t ++ [pass]) command (REPO_ROOT w)) as [second|] eqn:E2.
      * destruct (Z.eqb_spec (returncode second) 0) as [H2|H2]; cbn [negb].
        -- rewrite <- app_assoc. now apply both_pass with first second.
        -- rewrite <- !app_assoc. now apply second_fails with first.
      * rewrite <- app_assoc. now apply second_raises with first.
    + rewrite <- !app_assoc. now apply first_fails.
  - now apply first_raises.
Qed.

End CompileOutcome.

(** X11. [compile_pdf] returns true exactly when both calls of
    [subprocess.run] return and report status zero.  It raises exactly
    when one of the calls raises, the second being made only after the
    first reported status zero, and what it raises is what the call
    raised.  It never ends the process itself, and besides running the
    compiler it only prints to the error stream. *)
Theorem compile_pdf_true_iff_both_pass
        (w : world) (tex_path company_dir : str) (t : list event) :
  (fst (compile_pdf w tex_path company_dir t) = Ret true
   <-> exists first second,
        process w t (pass_command w tex_path company_dir) (REPO_ROOT w)
        = Some first
        /\ returncode first = 0%Z
        /\ process w (t ++ [pass_event w tex_path company_dir])
                   (pass_command w tex_path company_dir) (REPO_ROOT w)
           = Some second
        /\ returncode second = 0%Z)
  /\ (forall code, fst (compile_pdf w tex_path company_dir t) <> Exit code)
  /\ (forall e,
         fst (compile_pdf w tex_path company_dir t) = Raise e
         <-> e = RunError
             /\ (process w t (pass_command w tex_path company_dir) (REPO_ROOT w)
                 = None
                 \/ exists first,
                     process w t (pass_command w tex_path company_dir)
                             (REPO_ROOT w)
                     = Some first
                     /\ returncode first = 0%Z
                     /\ process w (t ++ [pass_event w tex_path company_dir])
                                (pass_command w tex_path company_dir)
                                (REPO_ROOT w)
                        = None))
  /\ exists evs,
      snd (compile_pdf w tex_path company_dir t) = t ++ evs
      /\ forallb (fun e => is_run e || is_print_err e) evs = true.
Proof.
  destruct (compile_pdf_compiled w tex_path company_dir t)
    as [first second E1 H1 E2 H2|first E1 H1|first second E1 H1 E2 H2
        |E1|first E1 H1 E2];
    cbn [fst snd];
    (split; [split; [intros H; try discriminate H
                    |intros (f1 & f2 & E1' & H1' & E2' & H2'); try congruence]
            |split; [discriminate
                    |split; [|eexists; split; reflexivity]]]).
  - now exists first, second.
  - intros e. split; [discriminate|].
    intros (_ & [E|(f & E1' & H1' & E2')]); congruence.
  - intros e. split; [discriminate|].
    intros (_ & [E|(f & E1' & H1' & E2')]); congruence.
  - intros e. split; [discriminate|].
    intros (_ & [E|(f & E1' & H1' & E2')]); congruence.
  - intros e. split.
    + intros E. injection E as <-. split; [reflexivity|now left].
    + now intros (-> & _).
  - intros e. split.
    + intros E. injection E as <-. split; [reflexivity|].
      right. now exists first.
    + now intros (-> & _).
Qed.

(** The first pass exits with status zero and the output of the second
    cannot be decoded: the compilation raises after two passes. *)
Example second_pass_raises :
  compile_pdf WORLD_SECOND_RAISES ACME_TEX ACME_DIR []
  = (Raise RunError,
     [pass_event WORLD_SECOND_RAISES ACME_TEX ACME_DIR;
      pass_event WORLD_SECOND_RAISES ACME_TEX ACME_DIR]).
Proof. reflexivity. Qed.

(** ** The run *)

(** X12. With any number of arguments but one the run prints the two
    usage lines to the error stream and exits with status one; it looks
    at nothing else. *)
Theorem wrong_arity_prints_usage (w : world) (prog : str) (rest : list str) :
  argv w = prog :: rest -> length rest <> 1 ->
  main w [] = (Exit 1, usage prog).
Proof.
  intros Hargv Hlen. unfold main. rewrite Hargv.
  destruct rest as [|a [|b rest]]; [reflexivity|now elim Hlen|reflexivity].
Qed.

Lemma wrong_arity_prints_usage_witness :
  main WORLD_NO_ARGUMENT [] = (Exit 1, usage (u "tailor.py")).
Proof.
  apply (@wrong_arity_prints_usage WORLD_NO_ARGUMENT (u "tailor.py") []);
    [reflexivity|discriminate].
Defined.

(** X13. When the job folder is no directory the run says so and exits
    with status one; this check comes before the one for the
    credential, so nothing is said of a missing key. *)
Theorem missing_folder_exits (w : world) (prog offer : str) :
  argv w = [prog; offer] ->
  os_path_isdir w (company_dir_of w offer) = false ->
  main w []
  = (Exit 1,
     [PrintErr (u "Error: Directory not found: " ++ company_dir_of w offer)]).
Proof.
  intros Hargv Hdir. unfold main. rewrite Hargv. run. rewrite Hdir. reflexivity.
Qed.

Lemma missing_folder_exits_witness :
  main WORLD_NO_FOLDER []
  = (Exit 1, [PrintErr (u "Error: Directory not found: /repo/offers/acme")]).
Proof.
  apply (@missing_folder_exits WORLD_NO_FOLDER (u "tailor.py") ACME);
    reflexivity.
Defined.

(** X14. A credential variable that is set to the empty text counts as
    not set: with the folder in place the run prints the missing-key
    error and exits with status one. *)
Theorem empty_credential_exits (w : world) (prog offer : str) :
  argv w = [prog; offer] ->
  os_path_isdir w (company_dir_of w offer) = true ->
  os_environ_get w API_KEY = None \/ os_environ_get w API_KEY = Some [] ->
  main w []
  = (Exit 1,
     [PrintErr (u "Error: GOOGLE_API_KEY environment variable is not set.")]).
Proof.
  intros Hargv Hdir Hkey. unfold main, env_missing. rewrite Hargv. run.
  rewrite Hdir. destruct Hkey as [-> | ->]; reflexivity.
Qed.

Lemma empty_credential_exits_witness :
  main WORLD_EMPTY_KEY []
  = (Exit 1,
     [PrintErr (u "Error: GOOGLE_API_KEY environment variable is not set.")]).
Proof.
  apply (@empty_credential_exits WORLD_EMPTY_KEY (u "tailor.py") ACME);
    [reflexivity|reflexivity|right; reflexivity].
Defined.

(** X15. When the resume cannot be read the run ends with the error of
    the failed [open]: the job folder is not searched, the model is not
    called and nothing is written. *)
Theorem unreadable_resume_stops_the_run (w : world) (prog offer : str) :
  argv w = [prog; offer] ->
  os_path_isdir w (company_dir_of w offer) = true ->
  env_missing w API_KEY = false ->
  file_text w (RESUME_TEX w) = None ->
  main w [] = (Raise (OSError (RESUME_TEX w)), [OpenRead (RESUME_TEX w)]).
Proof.
  intros Hargv Hdir Hkey Hresume. unfold main. rewrite Hargv. run.
  rewrite Hdir, Hkey, Hresume. reflexivity.
Qed.

Lemma unreadable_resume_stops_the_run_witness :
  main WORLD_NO_RESUME []
  = (Raise (OSError (u "/repo/resume.tex")), [OpenRead (u "/repo/resume.tex")]).
Proof.
  apply (@unreadable_resume_stops_the_run WORLD_NO_RESUME (u "tailor.py") ACME);
    reflexivity.
Defined.

(** X16. When the posting that was found cannot be read the run ends
    with the error of the failed [open], before the model is called. *)
Theorem unreadable_posting_stops_the_run
        (w : world) (prog offer resume first : str) (others : list str) :
  argv w = [prog; offer] ->
  os_path_isdir w (company_dir_of w offer) = true ->
  env_missing w API_KEY = false ->
  file_text w (RESUME_TEX w) = Some resume ->
  glob_txt w (posting_pattern (company_dir_of w offer)) = first :: others ->
  file_text w first = None ->
  main w [] = (Raise (OSError first), inputs_read w first others).
Proof.
  intros Hargv Hdir Hkey Hresume Hglob Hposting.
  unfold main. rewrite Hargv. run. rewrite Hdir, Hkey, Hresume. run.
  rewrite find_job_posting_some with (first := first) (others := others)
    by exact Hglob.
  run. rewrite Hposting. unfold inputs_read.
  now rewrite <- ?app_assoc.
Qed.

Lemma unreadable_posting_stops_the_run_witness :
  main WORLD_POSTING_UNREADABLE []
  = (Raise (OSError (u "/repo/offers/acme/jd.txt")),
     [OpenRead (u "/repo/resume.tex"); OpenRead (u "/repo/offers/acme/jd.txt")]).
Proof.
  apply (@unreadable_posting_stops_the_run
           WORLD_POSTING_UNREADABLE (u "tailor.py") ACME (u "text")
           (u "/repo/offers/acme/jd.txt") []);
    reflexivity.
Defined.

(** X17. When the model call raises, the run ends with that error right
    after the call: no file is written and the compiler is not run. *)
Theorem failed_model_call_writes_nothing
        (w : world) (prog offer resume first posting : str)
        (others : list str) :
  argv w = [prog; offer] ->
  os_path_isdir w (company_dir_of w offer) = true ->
  env_missing w API_KEY = false ->
  file_text w (RESUME_TEX w) = Some resume ->
  glob_txt w (posting_pattern (company_dir_of w offer)) = first :: others ->
  file_text w first = Some posting ->
  llm_reply w MODEL SYSTEM_PROMPT (user_prompt_of resume posting) = None ->
  main w []
  = (Raise InvokeError, model_called w offer resume first posting others).
Proof.
  intros Hargv Hdir Hkey Hresume Hglob Hposting Hreply.
  unfold main. rewrite Hargv. run. rewrite Hdir, Hkey, Hresume. run.
  rewrite find_job_posting_some with (first := first) (others := others)
    by exact Hglob.
  run. rewrite Hposting. run. rewrite Hreply.
  unfold model_called, inputs_read.
  rewrite <- ?app_assoc. cbn [app]. now rewrite <- ?app_assoc.
Qed.

Lemma failed_model_call_writes_nothing_witness :
  main WORLD_MODEL_DOWN []
  = (Raise InvokeError,
     [OpenRead (u "/repo/resume.tex");
      OpenRead (u "/repo/offers/acme/jd.txt");
      PrintOut (u "Calling Gemini 3 Pro to tailor CV for 'acme'...");
      Invoke MODEL SYSTEM_PROMPT (user_prompt_of (u "text") (u "text"))]).
Proof.
  apply (@failed_model_call_writes_nothing
           WORLD_MODEL_DOWN (u "tailor.py") ACME (u "text")
           (u "/repo/offers/acme/jd.txt") (u "text") []);
    reflexivity.
Defined.

(** X18. When the tailored document cannot be written the run ends with
    the error of the failed [open] and the compiler is not run; the
    validator has had its say before. *)
Theorem failed_write_skips_the_compiler
        (w : world) (prog offer resume first posting response : str)
        (others : list str) :
  argv w = [prog; offer] ->
  os_path_isdir w (company_dir_of w offer) = true ->
  env_missing w API_KEY = false ->
  file_text w (RESUME_TEX w) = Some resume ->
  glob_txt w (posting_pattern (company_dir_of w offer)) = first :: others ->
  file_text w first = Some posting ->
  llm_reply w MODEL SYSTEM_PROMPT (user_prompt_of resume posting)
  = Some response ->
  writable w (output_tex_of w offer) = false ->
  main w []
  = (Raise (OSError (output_tex_of w offer)),
     model_called w offer resume first posting others
     ++ if has_markers (strip_markdown_fences response) then []
        else [PrintErr VALIDATE_WARNING]).
Proof.
  intros Hargv Hdir Hkey Hresume Hglob Hposting Hreply Hwrite.
  unfold main. rewrite Hargv. run. rewrite Hdir, Hkey, Hresume. run.
  rewrite find_job_posting_some with (first := first) (others := others)
    by exact Hglob.
  run. rewrite Hposting. run. rewrite Hreply. run.
  rewrite validate_latex_run, Hwrite.
  unfold model_called, inputs_read.
  rewrite <- ?app_assoc. cbn [app]. now rewrite <- ?app_assoc.
Qed.

Lemma failed_write_skips_the_compiler_witness :
  main WORLD_READ_ONLY []
  = (Raise (OSError ACME_TEX),
     [OpenRead (u "/repo/resume.tex");
      OpenRead (u "/repo/offers/acme/jd.txt");
      PrintOut (u "Calling Gemini 3 Pro to tailor CV for 'acme'...");
      Invoke MODEL SYSTEM_PROMPT (user_prompt_of (u "text") (u "text"))]).
Proof.
  apply (@failed_write_skips_the_compiler
           WORLD_READ_ONLY (u "tailor.py") ACME (u "text")
           (u "/repo/offers/acme/jd.txt") (u "text") SAMPLE_REPLY []);
    reflexivity.
Defined.

(** X19. The run ends with status zero or one, and with zero only when
    it went all the way: both inputs read, the model called, the
    tailored document written, the compiler run twice and the artifact
    announced. *)
Theorem status_zero_only_after_two_passes (w : world) :
  exit_status (fst (main w [])) = 1%Z
  \/ exists prog offer resume first posting response others,
      argv w = [prog; offer]
      /\ llm_reply w MODEL SYSTEM_PROMPT (user_prompt_of resume posting)
         = Some response
      /\ main w []
         = (Ret tt, full_run w offer resume first posting response others).
Proof.
  unfold main.
  destruct (argv w) as [|prog [|offer [|extra more]]] eqn:Hargv; run;
    try (left; reflexivity).
  destruct (os_path_isdir w (company_dir_of w offer)); run;
    [|left; reflexivity].
  destruct (env_missing w API_KEY); run; [left; reflexivity|].
  destruct (file_text w (RESUME_TEX w)) as [resume|]; run;
    [|left; reflexivity].
  destruct (glob_txt w (posting_pattern (company_dir_of w offer)))
    as [|first others] eqn:Hglob.
  { rewrite find_job_posting_none by exact Hglob. left. reflexivity. }
  rewrite find_job_posting_some with (first := first) (others := others)
    by exact Hglob.
  run.
  destruct (file_text w first) as [posting|]; run; [|left; reflexivity].
  destruct (llm_reply w MODEL SYSTEM_PROMPT (user_prompt_of resume posting))
    as [response|] eqn:Hreply; run; [|left; reflexivity].
  rewrite validate_latex_run.
  destruct (writable w (output_tex_of w offer)); run; [|left; reflexivity].
  match goal with
  | |- context [compile_pdf ?w ?a ?b ?T] =>
      pose proof (compile_pdf_compiled w a b T) as Hc;
      destruct (compile_pdf w a b T) as [o t']
  end.
  inversion Hc; subst; run; try (left; reflexivity).
  right. exists prog, offer, resume, first, posting, response, others.
  repeat split; try assumption.
  f_equal. unfold full_run, document_written, model_called, inputs_read.
  rewrite <- ?app_assoc. cbn [app]. rewrite <- ?app_assoc. cbn [app].
  reflexivity.
Qed.


